(** * Jet pairing, dijet cuts and quadjet selection of [analysis.process]

    A shallow embedding of the reconstruction core of [python/analysis.py]
    (jet preselection, the three fixed jet pairings, the dijet mass and
    sliding delta-r windows, the quadjet rank and its selection, the region
    flags and the fills handed to the histograms), followed by the properties
    the specification states about it.

    Numbers.  A finite float64 is a rational number: the float64 columns of
    the source are modelled by [Q], and comparisons of finite floats are
    comparisons of these rationals.  The arithmetic whose rounding decides
    a flag or the order of two ranks is float64 arithmetic here as well: the
    bounds of the delta-r window, the samples of [np.random.uniform] and
    the rank are rounded by [round64], the rounding to the nearest float64,
    after each operation.  The sums that build a dijet and the residual
    [xH] are kept as exact rationals.  Where the source divides by a column
    that can be zero, the non-finite result of numpy is written out.
    Masses, delta-r and sums are finite numbers here: a [nan] from the
    libraries is outside the model.

    Collaborators.  The four-vector arithmetic of [coffea.nanoevents.methods.vector],
    [ak.sum], [np.sqrt] and the Mersenne Twister behind [np.random] are not
    part of the repository; they are the fields of [Externals]. *)

From Stdlib Require Import String.
From Stdlib Require Import List QArith Qabs Qminmax ZArith Bool Lia Lqa.
From Stdlib Require Import Qpower Qround.
From Stdlib Require Import Permutation.
Import ListNotations.
Open Scope Q_scope.

(** ** Comparisons and small array helpers *)

(** [x < y] on columns, as a boolean. *)
Definition Qltb (x y : Q) : bool := negb (Qle_bool y x).

(** The option monad: an out-of-range index raises in Python; here it is [None]. *)
Definition obind {A B} (o : option A) (k : A -> option B) : option B :=
  match o with
  | Some a => k a
  | None => None
  end.

Notation "x <- e ;; k" := (obind e (fun x => k))
  (at level 61, e at next level, right associativity).

Fixpoint mapM {A B} (f : A -> option B) (l : list A) : option (list B) :=
  match l with
  | [] => Some []
  | a :: l' => b <- f a ;; bs <- mapM f l' ;; Some (b :: bs)
  end.

(** [xs[idx]] for a list of integer indices. *)
Definition getitem {A} (xs : list A) (idx : list nat) : option (list A) :=
  mapM (nth_error xs) idx.

(** [xs[idx]] for a two-dimensional integer index: the result has the shape
    of the index. *)
Definition getitem2 {A} (xs : list A) (idx : list (list nat))
  : option (list (list A)) :=
  mapM (getitem xs) idx.

(** Element-wise binary operation on two arrays of the same shape. *)
Fixpoint zipWith {A B C} (f : A -> B -> C) (l : list A) (r : list B) : list C :=
  match l, r with
  | a :: l', b :: r' => f a b :: zipWith f l' r'
  | _, _ => []
  end.

(** [map] that also passes the position along the axis (the axis of length
    two along which the dijet constants are broadcast). *)
Fixpoint mapi_from {A B} (i : nat) (f : nat -> A -> B) (l : list A) : list B :=
  match l with
  | [] => []
  | a :: l' => f i a :: mapi_from (S i) f l'
  end.

Definition mapi {A B} (f : nat -> A -> B) (l : list A) : list B :=
  mapi_from 0 f l.

(** [ak.argsort(keys, ascending=False)] along the last axis: a stable
    descending sort of the positions. *)
Fixpoint insert_desc (x : nat * Q) (l : list (nat * Q)) : list (nat * Q) :=
  match l with
  | [] => [x]
  | y :: l' =>
      if Qle_bool (snd y) (snd x) then x :: y :: l' else y :: insert_desc x l'
  end.

Definition argsort_desc (keys : list Q) : list nat :=
  map fst (fold_right insert_desc [] (combine (seq 0 (length keys)) keys)).

(** [np.max] of a row; [None] for an empty row. *)
Definition np_max (row : list Q) : option Q :=
  match row with
  | [] => None
  | r :: rest => Some (fold_left Qmax rest r)
  end.

(** ** float64

    The rounding of a real result to the nearest float64, ties to even, for
    results in the normal range (between [2^-1022] and [2^1024] in absolute
    value; no quantity of the analysis leaves it without becoming
    non-finite, which is written out where it happens). *)

Definition pow2 (s : Z) : Q := 2 ^ s.

(** The exponent [e] with [2^e <= x < 2^(e+1)], for [0 < x]. *)
Definition ilog2 (x : Q) : Z :=
  let c := (Z.log2 (Qnum x) - Z.log2 (Zpos (Qden x)))%Z in
  if Qle_bool (pow2 c) x then c else (c - 1)%Z.

(** The nearest integer, ties to even. *)
Definition rne (m : Q) : Z :=
  let f := Qfloor m in
  match Qcompare (m - inject_Z f) (1 # 2) with
  | Lt => f
  | Gt => (f + 1)%Z
  | Eq => if Z.even f then f else (f + 1)%Z
  end.

(** The nearest number with a significand of 53 bits, for [0 < x]. *)
Definition round_pos (x : Q) : Q :=
  let u := pow2 (ilog2 x - 52) in inject_Z (rne (x / u)) * u.

Definition round64 (x : Q) : Q :=
  match Qcompare x 0 with
  | Eq => 0
  | Gt => round_pos x
  | Lt => - round_pos (- x)
  end.

(** The largest finite float64. *)
Definition float64_max : Q := inject_Z (2 ^ 1024 - 2 ^ 971).

(** One sample of [np.random.uniform(low, high)] from the double [u] of the
    generator: the limits are converted to float64, their difference is a
    float64, and the sample is [low + (high - low) * u] in float64. *)
Definition random_uniform (low high u : Q) : Q :=
  let flow := round64 low in
  let fscale := round64 (round64 high - flow) in
  round64 (flow + round64 (fscale * u)).

(** ** Data model *)

Module Jet.
(** A jet as read from the file: a [PtEtaPhiMLorentzVector]. *)
Record t := mk { pt : Q; eta : Q; phi : Q; mass : Q }.

(** [event['Jet', 'selected'] = (event.Jet.pt>=40) & (np.abs(event.Jet.eta)<=2.4)] *)
Definition selected (j : t) : bool :=
  Qle_bool 40 (pt j) && Qle_bool (Qabs (eta j)) 2.4.
End Jet.

Module LorentzVector.
(** The Cartesian four-vector that adding two jets produces. *)
Record vec := mk { x : Q; y : Q; z : Q; t : Q }.

Definition add (a b : vec) : vec :=
  mk (x a + x b) (y a + y b) (z a + z b) (t a + t b).
End LorentzVector.

Module Event.
Record t := mk { weight : Q; Jet : list Jet.t }.

(** [event['nJet_selected'] = ak.sum(event.Jet.selected, axis=1)] *)
Definition nJet_selected (e : t) : nat :=
  length (filter Jet.selected (Jet e)).
End Event.

(** The chunk handed to [process]: its metadata and its events. *)
Record Batch := { dataset : string; events : list Event.t }.

(** What the repository takes from its libraries. *)
Record Externals := {
  (* x, y, z, t of a jet given by pt, eta, phi, mass *)
  cartesian : Jet.t -> LorentzVector.vec;
  (* .mass of a Cartesian four-vector *)
  vec_mass : LorentzVector.vec -> Q;
  (* a.delta_r(b) of two jets *)
  jet_delta_r : Jet.t -> Jet.t -> Q;
  (* a.delta_r(b) of two Cartesian four-vectors *)
  vec_delta_r : LorentzVector.vec -> LorentzVector.vec -> Q;
  (* ak.sum(event.Jet, axis=1).mass of one event *)
  v4j_mass : list Jet.t -> Q;
  (* ak.sum of a flat column of weights *)
  ak_sum : list Q -> Q;
  (* np.sqrt *)
  np_sqrt : Q -> Q;
  (* the k-th double in [0,1) that the generator returns after seed(s) *)
  random_sample : Z -> nat -> Q
}.

Module diJet.
(** The record built at lines 83-87: the summed four-vector and the fields
    attached to it. *)
Record base := mkBase {
  p4 : LorentzVector.vec;
  st : Q;
  dr : Q;
  lead : Jet.t;
  subl : Jet.t
}.

(** The same record after the cuts of lines 93-110 are attached. *)
Record t := mk {
  kin : base;
  diJetMass : bool;
  drc : bool;
  xH : option Q
}.
End diJet.

Module quadJet.
Record t := mk {
  lead : diJet.t;
  subl : diJet.t;
  diJetMass : bool;
  random : Q;
  dr : Q;
  xHH : option Q;
  SR : bool;
  SB : bool;
  rank : Q
}.
End quadJet.

(** ** The random generator

    The state of numpy's global generator: the seed it was last seeded with
    and the number of doubles drawn since. *)
Definition rng : Type := (Z * nat)%type.

Definition State (A : Type) : Type := rng -> A * rng.

Definition ret {A} (a : A) : State A := fun g => (a, g).

Definition bind {A B} (m : State A) (k : A -> State B) : State B :=
  fun g => let (a, g') := m g in k a g'.

Notation "x <~ e ;; k" := (bind e (fun x => k))
  (at level 61, e at next level, right associativity).

(** [np.random.seed(s)] *)
Definition np_random_seed (s : Z) : State unit := fun _ => (tt, (s, 0%nat)).

Module Reco.
(** A surviving event with the columns attached to it at lines 131-133. *)
Record t := mk {
  event : Event.t;
  diJet : list (list diJet.t);
  quadJet : list quadJet.t;
  quadJet_selected : quadJet.t
}.

(** [event['diJetMass']], [event['SB']], [event['SR']]: lines 134-136. *)
Definition diJetMass (r : t) : bool := quadJet.diJetMass (quadJet_selected r).
Definition SB (r : t) : bool := quadJet.SB (quadJet_selected r).
Definition SR (r : t) : bool := quadJet.SR (quadJet_selected r).
End Reco.

(** What [process] returns: the fills received by the two histograms, in the
    order of the calls, and the two counters. *)
Record Output := {
  hists_m4j : list (string * string * string * Q * Q);
  cutflow : list (string * string * string * Q);
  sumw : Q;
  nEvent : nat
}.

(** ** The analysis *)

Section Analysis.

Variable E : Externals.

(** [np.random.uniform(low, high)]: one double of the generator, scaled in
    float64. *)
Definition uniform (low high : Q) : State Q :=
  fun g => let (s, k) := g in
           (random_uniform low high (random_sample E s k), (s, S k)).

Fixpoint uniform_row (low high : Q) (n : nat) : State (list Q) :=
  match n with
  | O => ret []
  | S n' => u <~ uniform low high ;; us <~ uniform_row low high n' ;; ret (u :: us)
  end.

(** [np.random.uniform(low, high, size=(rows, cols))], filled row by row. *)
Fixpoint uniform_size (low high : Q) (rows cols : nat) : State (list (list Q)) :=
  match rows with
  | O => ret []
  | S r' =>
      row <~ uniform_row low high cols ;;
      rest <~ uniform_size low high r' cols ;;
      ret (row :: rest)
  end.

(** *** Build diJets, indexed by [diJet[event,pairing,0/1]] *)

Definition pairing : list (list nat) * list (list nat) :=
  ([[0; 2]; [0; 1]; [0; 1]],
   [[1; 3]; [2; 3]; [3; 2]])%nat.

(** One entry of [event.Jet[:,pairing[0]] + event.Jet[:,pairing[1]]] with
    the fields [st], [dr], [lead], [subl] attached to it. *)
Definition diJet_sum (a b : Jet.t) : diJet.base :=
  diJet.mkBase (LorentzVector.add (cartesian E a) (cartesian E b))
               (Jet.pt a + Jet.pt b)
               (jet_delta_r E a b)
               a
               b.

(** [diJet[ak.argsort(diJet.st, axis=2, ascending=False)]] on one pairing. *)
Definition sort_by_st (slot : list diJet.base) : option (list diJet.base) :=
  getitem slot (argsort_desc (map diJet.st slot)).

Definition mass (d : diJet.base) : Q := vec_mass E (diJet.p4 d).

(** *** diJetMass cut with independent min/max for lead/subl *)

Definition minDiJetMass : list Q := [52; 50].
Definition maxDiJetMass : list Q := [180; 173].

Definition diJetMass_cut (k : nat) (d : diJet.base) : bool :=
  Qltb (nth k minDiJetMass 0) (mass d) && Qltb (mass d) (nth k maxDiJetMass 0).

(** *** Sliding window delta_r criteria (drc) *)

Definition min_m4j_scale : list Q := [360; 235].
Definition min_dr_offset : list Q := [-0.5; 0.0].
Definition max_m4j_scale : list Q := [650; 650].
(** 0.7 is not a float64: the array holds the float64 nearest to it (the
    other constants of the window are float64). *)
Definition max_dr_offset : list Q := [0.5; round64 0.7].
Definition max_dr : list Q := [1.5; 1.5].

(** The quotient and the sum of each bound are float64 operations.  For
    [m4j = 0] numpy evaluates [min_m4j_scale/m4j] to [inf], and
    [inf + min_dr_offset < dr] is false. *)
Definition drc_cut (k : nat) (m4j : Q) (d : diJet.base) : bool :=
  if Qeq_bool m4j 0 then false
  else
    Qltb (round64 (round64 (nth k min_m4j_scale 0 / m4j)
                   + nth k min_dr_offset 0))
         (diJet.dr d)
    && Qltb (diJet.dr d)
            (Qmax (round64 (round64 (nth k max_m4j_scale 0 / m4j)
                            + nth k max_dr_offset 0))
                  (nth k max_dr 0)).

(** *** Consistency of diJet masses with the higgs boson mass *)

Definition mH : Q := 125.0.
Definition st_bias : list Q := [1.02; 0.98].
Definition cH : list Q := map (Qmult mH) st_bias.

(** [None] stands for the non-finite quotient numpy returns when
    [0.1*diJet.mass] is zero or so small that the quotient is beyond the
    largest float64. *)
Definition xH_of (k : nat) (d : diJet.base) : option Q :=
  if Qeq_bool (0.1 * mass d) 0 then None
  else
    let xH := (mass d - nth k cH 0) / (0.1 * mass d) in
    if Qle_bool (Qabs xH) float64_max then Some xH else None.

(** The three fields attached to the dijet at position [k] of its pairing. *)
Definition cuts (m4j : Q) (k : nat) (d : diJet.base) : diJet.t :=
  diJet.mk d (diJetMass_cut k d) (drc_cut k m4j d) (xH_of k d).

(** All dijets of one event: lines 83-110. *)
Definition event_diJet (Jet : list Jet.t) : option (list (list diJet.t)) :=
  a <- getitem2 Jet (fst pairing) ;;
  b <- getitem2 Jet (snd pairing) ;;
  sorted <- mapM sort_by_st (zipWith (zipWith diJet_sum) a b) ;;
  Some (map (mapi (cuts (v4j_mass E Jet))) sorted).

(** *** Build quadJets *)

Definition max_xHH : Q := 1.9.

(** [np.sqrt(quadJet.lead.xH**2 + quadJet.subl.xH**2)]; non-finite as soon
    as one of the two is. *)
Definition xHH_of (lead subl : diJet.t) : option Q :=
  a <- diJet.xH lead ;; b <- diJet.xH subl ;; Some (np_sqrt E (a ^ 2 + b ^ 2)).

(** [quadJet.xHH < max_xHH]; a comparison with a non-finite [xHH] ([inf] or
    [nan]) is false. *)
Definition SR_of (xHH : option Q) : bool :=
  match xHH with
  | Some v => Qltb v max_xHH
  | None => false
  end.

(** The four flags are summed as integers; adding the random float64 is a
    float64 addition. *)
Definition rank_of (lead subl : diJet.t) (random : Q) : Q :=
  round64
    (inject_Z (10 * Z.b2z (diJet.diJetMass lead)
               + 10 * Z.b2z (diJet.diJetMass subl)
               + Z.b2z (diJet.drc lead) + Z.b2z (diJet.drc subl))
     + random).

(** The quadJet of one pairing: lines 115-128. *)
Definition quadJet_zip (slot : list diJet.t) (random : Q) : option quadJet.t :=
  lead <- nth_error slot 0 ;;
  subl <- nth_error slot 1 ;;
  let diJetMass := forallb diJet.diJetMass slot in
  let dr := vec_delta_r E (diJet.p4 (diJet.kin lead)) (diJet.p4 (diJet.kin subl)) in
  let xHH := xHH_of lead subl in
  let SR := SR_of xHH in
  let SB := diJetMass && negb SR in
  Some (quadJet.mk lead subl diJetMass random dr xHH SR SB
                   (rank_of lead subl random)).

Definition event_quadJet (diJet : list (list diJet.t)) (random : list Q)
  : option (list quadJet.t) :=
  mapM (fun p => quadJet_zip (fst p) (snd p)) (combine diJet random).

(** [quadJet.rank == np.max(quadJet.rank, axis=1)]: the column of flags of
    one event. *)
Definition selected (qs : list quadJet.t) : list bool :=
  match np_max (map quadJet.rank qs) with
  | Some m => map (fun q => Qeq_bool (quadJet.rank q) m) qs
  | None => []
  end.

(** [xs[flags]] for a column of booleans. *)
Definition getmask {A} (xs : list A) (flags : list bool) : list A :=
  map fst (filter snd (combine xs flags)).

(** [quadJet[quadJet.selected][:,0]] *)
Definition quadJet_selected (qs : list quadJet.t) : option quadJet.t :=
  nth_error (getmask qs (selected qs)) 0.

(** *** The batch *)

(** Lines 83-133 for one event, given its row of random numbers. *)
Definition reco_event (e : Event.t) (diJet : list (list diJet.t)) (random : list Q)
  : option Reco.t :=
  quadJet <- event_quadJet diJet random ;;
  winner <- quadJet_selected quadJet ;;
  Some (Reco.mk e diJet quadJet winner).

(** Lines 83-133 for the events that passed the jet selection: all dijets
    first, then one draw of the whole random column, then the quadJets.
    With no event there is nothing to reconstruct; that the source fails on
    an empty selection is part of [process]. *)
Definition reconstruct (event : list Event.t) : State (option (list Reco.t)) :=
  match mapM (fun e => event_diJet (Event.Jet e)) event with
  | None => ret None
  | Some diJet =>
      random <~ uniform_size 0.1 0.9 (length diJet) 3 ;;
      ret (mapM (fun edr => reco_event (fst (fst edr)) (snd (fst edr)) (snd edr))
                (combine (combine event diJet) random))
  end.

(** [output['cutflow'].fill(dataset=, cut=, region=[region]*len(event), weight=event.weight)] *)
Definition fill_cutflow (output : Output) (ds cut region : string)
  (event : list Event.t) : Output :=
  {| hists_m4j := hists_m4j output;
     cutflow := cutflow output
                ++ map (fun e => (ds, cut, region, Event.weight e)) event;
     sumw := sumw output;
     nEvent := nEvent output |}.

(** [output['hists']['m4j'].fill(dataset=, cut=, region=, mass=event.v4j.mass, weight=event.weight)] *)
Definition fill_m4j (output : Output) (ds cut region : string)
  (event : list Event.t) : Output :=
  {| hists_m4j := hists_m4j output
                  ++ map (fun e => (ds, cut, region,
                                    v4j_mass E (Event.Jet e), Event.weight e))
                         event;
     cutflow := cutflow output;
     sumw := sumw output;
     nEvent := nEvent output |}.

(** [analysis.fill] *)
Definition fill (output : Output) (event : list Event.t) (ds cut region : string)
  : Output :=
  fill_m4j (fill_cutflow output ds cut region event) ds cut region event.

(** [event[flag]] on the reconstructed events. *)
Definition where_ (flag : Reco.t -> bool) (rs : list Reco.t) : list Event.t :=
  map Reco.event (filter flag rs).

(** [event[event.nJet_selected>=4]] *)
Definition preselection (event : list Event.t) : list Event.t :=
  filter (fun e => 4 <=? Event.nJet_selected e)%nat event.

(** [analysis.process].  When no event passes the jet selection the
    constants of shape (1,1,2) of line 95 do not broadcast against the empty
    array of diJets and the source raises a [ValueError]. *)
Definition process (batch : Batch) : State (option Output) :=
  _ <~ np_random_seed 0 ;;
  let ds := dataset batch in
  let event := events batch in
  let output := {| hists_m4j := [];
                   cutflow := [];
                   sumw := ak_sum E (map Event.weight event);
                   nEvent := length event |} in
  let output := fill output event ds "all" "inclusive" in
  let event := preselection event in
  let output := fill output event ds "preselection" "inclusive" in
  match event with
  | [] => ret None
  | _ :: _ =>
      reco <~ reconstruct event ;;
      ret (rs <- reco ;;
           let output := fill output (where_ Reco.diJetMass rs) ds "preselection" "diJetMass" in
           let output := fill output (where_ Reco.SB rs) ds "preselection" "SB" in
           let output := fill output (where_ Reco.SR rs) ds "preselection" "SR" in
           Some output)
  end.

End Analysis.

(** ** A stand-in for the libraries

    Rational stand-ins for the collaborators, used to run the analysis on
    concrete events: the transverse plane only, Manhattan distances, and a
    generator that counts. *)
Definition toy : Externals :=
  {| cartesian := fun j => LorentzVector.mk (Jet.pt j) 0 0 (Jet.pt j + Jet.mass j);
     vec_mass := fun v => LorentzVector.t v - LorentzVector.x v;
     jet_delta_r := fun a b => Qabs (Jet.eta a - Jet.eta b) + Qabs (Jet.phi a - Jet.phi b);
     vec_delta_r := fun a b => Qabs (LorentzVector.x a - LorentzVector.x b);
     v4j_mass := fun js => fold_left Qplus (map Jet.mass js) 0 * 4;
     ak_sum := fun col => fold_left Qplus col 0;
     np_sqrt := fun q => q;
     random_sample := fun s k => inject_Z (Z.of_nat (k mod 7)) / 7 |}.

(** ** Vocabulary of the statements *)

(** The two possible outcomes of sorting a pairing of two dijets by [st]. *)
Definition sort2 (a b : diJet.base) : list diJet.base :=
  if Qle_bool (diJet.st b) (diJet.st a) then [a; b] else [b; a].

(** A pairing after the sort and the cuts. *)
Definition slot (E : Externals) (m4j : Q) (a b : diJet.base) : list diJet.t :=
  mapi (cuts E m4j) (sort2 a b).

(** The jets a pairing is made of, dijet by dijet. *)
Definition constituents (s : list diJet.t) : list Jet.t :=
  flat_map (fun d => [diJet.lead (diJet.kin d); diJet.subl (diJet.kin d)]) s.

(** Two dijets made of the same two jets, in either order. *)
Definition same_pair (d d' : diJet.t) : Prop :=
  (diJet.lead (diJet.kin d) = diJet.lead (diJet.kin d')
   /\ diJet.subl (diJet.kin d) = diJet.subl (diJet.kin d'))
  \/ (diJet.lead (diJet.kin d) = diJet.subl (diJet.kin d')
      /\ diJet.subl (diJet.kin d) = diJet.lead (diJet.kin d')).

(** The integer part of the rank: the mass-window and delta-r terms. *)
Definition discrete (q : quadJet.t) : Z :=
  10 * Z.b2z (diJet.diJetMass (quadJet.lead q))
  + 10 * Z.b2z (diJet.diJetMass (quadJet.subl q))
  + Z.b2z (diJet.drc (quadJet.lead q))
  + Z.b2z (diJet.drc (quadJet.subl q)).

(** The jet selection of line 73 on one event. *)
Definition survives (e : Event.t) : bool := (4 <=? Event.nJet_selected e)%nat.

(** [P] holds of every event of the batch that passed the jet selection, as
    [process] reconstructs it when the generator is in state [g]: the
    reconstruction returns, it returns the surviving events in their order,
    and [P] holds of each of them. *)
Definition every_survivor (E : Externals) (batch : Batch) (g : rng)
  (P : Reco.t -> Prop) : Prop :=
  exists rs,
    fst (reconstruct E (preselection (events batch)) g) = Some rs
    /\ map Reco.event rs = preselection (events batch)
    /\ forall r, In r rs -> P r.

(** The number of flags set in a column. *)
Definition count_true (flags : list bool) : nat := length (filter id flags).

(** ** Concrete events *)

Definition central (pt m : Q) : Jet.t := Jet.mk pt 0.5 0 m.

(** Four selected jets, ordered by pt. *)
Definition ev_sorted : Event.t :=
  Event.mk 1 [central 100 30; central 80 30; central 60 20; central 50 20].

(** Four selected jets that are not ordered by pt. *)
Definition ev_unsorted : Event.t :=
  Event.mk 1 [central 50 20; central 60 30; central 45 20; central 70 30].

(** Five jets: the first one is too soft to be selected, the other four are
    selected. *)
Definition ev_five : Event.t :=
  Event.mk 1 [central 10 5; central 90 20; central 80 20; central 70 20;
              central 60 20].



(** A chunk of two events: [ev_five] with its fifth jet removed has three
    selected jets only and is dropped, [ev_sorted] is kept. *)
Definition chunk : Batch :=
  {| dataset := "toy";
     events := [Event.mk 2 [central 10 5; central 90 20; central 80 20;
                            central 70 20];
                ev_sorted] |}.

Definition run_sorted : list Reco.t :=
  Eval vm_compute in
    match fst (reconstruct toy (preselection (events chunk)) (7%Z, 5%nat)) with
    | Some rs => rs
    | None => []
    end.

(** ** The rest of the file *)

(** *** [count_nested_dict] *)

(** A Python object as [count_nested_dict] sees it: a dict, given by its
    items in iteration order (the keys of a Python dict are distinct), or
    any other object. *)
#[warnings="-register-all"] Inductive pyobj : Type :=
| Leaf : pyobj
| Dict : list (string * pyobj) -> pyobj.

(** The body of the loop of [count_nested_dict] on the value of one key
    ([count_nested_dict(nested_dict[key], c)] for a dict, [c + 1] otherwise)
    and, for a dict, the loop over its keys. *)
Fixpoint count_obj (v : pyobj) (c : nat) : nat :=
  match v with
  | Leaf => (c + 1)%nat
  | Dict items =>
      (fix loop (items : list (string * pyobj)) (c : nat) : nat :=
         match items with
         | [] => c
         | (_, v') :: rest => loop rest (count_obj v' c)
         end) items c
  end.

(** [count_nested_dict(nested_dict, c=0)] *)
Definition count_nested_dict (nested_dict : list (string * pyobj)) (c : nat)
  : nat :=
  count_obj (Dict nested_dict) c.

(** The key paths that lead to the objects of a nested dict that are not
    dicts. *)
Fixpoint paths (v : pyobj) : list (list string) :=
  match v with
  | Leaf => [[]]
  | Dict items =>
      flat_map (fun kv : string * pyobj =>
                  let (k, v') := kv in map (cons k) (paths v'))
               items
  end.

(** Induction on nested dicts: the property holds of a dict as soon as it
    holds of the values of its items. *)
Fixpoint pyobj_nested_ind (P : pyobj -> Prop)
  (HL : P Leaf)
  (HD : forall items, Forall (fun kv => P (snd kv)) items -> P (Dict items))
  (v : pyobj) : P v :=
  match v with
  | Leaf => HL
  | Dict items =>
      HD items
         ((fix go (l : list (string * pyobj))
             : Forall (fun kv => P (snd kv)) l :=
             match l with
             | [] => Forall_nil _
             | kv :: rest =>
                 Forall_cons kv
                   (match kv as p return P (snd p) with
                    | (_, v') => pyobj_nested_ind P HL HD v'
                    end)
                   (go rest)
             end) items)
  end.

(** *** Vocabulary for the output *)

(** The event with its weight [w] replaced by [f w]. *)
Definition reweight (f : Q -> Q) (e : Event.t) : Event.t :=
  Event.mk (f (Event.weight e)) (Event.Jet e).

Definition reweight_batch (f : Q -> Q) (batch : Batch) : Batch :=
  {| dataset := dataset batch;
     events := map (reweight f) (events batch) |}.

(** The fills of the cutflow under one cut and one region. *)
Definition cutflow_in (cut region : string) (out : Output)
  : list (string * string * string * Q) :=
  filter (fun f => let '(_, c, r, _) := f in
                   String.eqb c cut && String.eqb r region)
         (cutflow out).

(** The fills that [fill] adds to the cutflow for a list of events. *)
Definition cutflow_entries (ds cut region : string) (event : list Event.t)
  : list (string * string * string * Q) :=
  map (fun e => (ds, cut, region, Event.weight e)) event.

(** The output of [process], written out for the reconstructed events
    [rs]. *)
Definition output_of (E : Externals) (batch : Batch) (rs : list Reco.t)
  : Output :=
  let ds := dataset batch in
  let out := {| hists_m4j := [];
                cutflow := [];
                sumw := ak_sum E (map Event.weight (events batch));
                nEvent := length (events batch) |} in
  let out := fill E out (events batch) ds "all" "inclusive" in
  let out := fill E out (preselection (events batch)) ds "preselection" "inclusive" in
  let out := fill E out (where_ Reco.diJetMass rs) ds "preselection" "diJetMass" in
  let out := fill E out (where_ Reco.SB rs) ds "preselection" "SB" in
  fill E out (where_ Reco.SR rs) ds "preselection" "SR".

(** A reconstructed event with the weight of its event replaced. *)
Definition reweight_reco (f : Q -> Q) (r : Reco.t) : Reco.t :=
  Reco.mk (reweight f (Reco.event r)) (Reco.diJet r) (Reco.quadJet r)
          (Reco.quadJet_selected r).

(** A fill of the cutflow, and a fill of the mass histogram, with the weight
    replaced. *)
Definition reweight_cutflow_fill (f : Q -> Q) (x : string * string * string * Q)
  : string * string * string * Q :=
  let '(d, c, r, w) := x in (d, c, r, f w).

Definition reweight_hist_fill (f : Q -> Q)
  (x : string * string * string * Q * Q)
  : string * string * string * Q * Q :=
  let '(d, c, r, m, w) := x in (d, c, r, m, f w).

(** A fill of the mass histogram without its mass. *)
Definition drop_mass (f : string * string * string * Q * Q)
  : string * string * string * Q :=
  let '(d, c, r, _, w) := f in (d, c, r, w).

(** Four selected jets whose first pairing has dijet masses 127.5 and 122.5
    under [toy]. *)
Definition ev_higgs : Event.t :=
  Event.mk 1 [central 100 63.75; central 90 63.75; central 80 61.25;
              central 70 61.25].

Definition chunk_higgs : Batch := {| dataset := "toy"; events := [ev_higgs] |}.

Definition run_higgs : list Reco.t :=
  Eval vm_compute in
    match fst (reconstruct toy (preselection (events chunk_higgs))
                           (0%Z, 0%nat)) with
    | Some rs => rs
    | None => []
    end.

(** The row of random numbers of the [i]-th surviving event of a batch when
    the generator was seeded with [s] and [k] doubles were drawn before. *)
Definition random_row (E : Externals) (s : Z) (k i : nat) : list Q :=
  map (fun p => random_uniform 0.1 0.9 (random_sample E s (k + 3 * i + p)%nat))
      (seq 0 3).

(** Runs the reconstruction of [chunk] inside a statement on its survivors. *)
Ltac run_chunk H :=
  let rs := fresh "rs" in
  let Hrs := fresh "Hrs" in
  let HP := fresh "HP" in
  destruct H as (rs & Hrs & _ & HP);
  vm_compute in Hrs; injection Hrs as <-.

(** ** Helper lemmas *)

(** *** float64 rounding *)

Lemma pow2_pos (s : Z) : 0 < pow2 s.
Proof. apply Qpower_0_lt. reflexivity. Qed.

Lemma pow2_plus (a b : Z) : pow2 (a + b) == pow2 a * pow2 b.
Proof. apply Qpower_plus. discriminate. Qed.

Lemma pow2_le (a b : Z) : (a <= b)%Z -> pow2 a <= pow2 b.
Proof. intro H. apply Qpower_le_compat_l; [exact H | discriminate]. Qed.

Lemma pow2_lt_inv (a b : Z) : pow2 a < pow2 b -> (a < b)%Z.
Proof. intro H. apply (Qpower_lt_compat_l_inv 2); [exact H | reflexivity]. Qed.

Lemma pow2_nonneg (a : Z) : (0 <= a)%Z -> pow2 a == inject_Z (2 ^ a).
Proof. intro H. unfold pow2. now rewrite Zpower_Qpower. Qed.

Lemma ilog2_spec (x : Q) :
  0 < x -> pow2 (ilog2 x) <= x /\ x < pow2 (ilog2 x + 1).
Proof.
  intro Hx. destruct x as [n d]. unfold ilog2. cbn [Qnum Qden].
  assert (0 < n)%Z as Hn by (unfold Qlt in Hx; simpl in Hx; lia).
  set (a := Z.log2 n). set (b := Z.log2 (Z.pos d)).
  destruct (Z.log2_spec n Hn) as [La Ua]. fold a in La, Ua.
  destruct (Z.log2_spec (Z.pos d) (Pos2Z.is_pos d)) as [Lb Ub]. fold b in Lb, Ub.
  assert (0 <= a)%Z as Ha by apply Z.log2_nonneg.
  assert (0 <= b)%Z as Hb by apply Z.log2_nonneg.
  assert (n # d == inject_Z n / inject_Z (Z.pos d)) as Hnd by apply Qmake_Qdiv.
  assert (0 < inject_Z (Z.pos d)) as Hdpos by (unfold Qlt; simpl; lia).
  assert (pow2 a <= inject_Z n) as Qa
      by (rewrite pow2_nonneg by lia; rewrite <- Zle_Qle; exact La).
  assert (inject_Z n < pow2 (a + 1)) as Qa'
      by (rewrite pow2_nonneg by lia; rewrite <- Zlt_Qlt; rewrite <- Z.add_1_r in Ua; exact Ua).
  assert (pow2 b <= inject_Z (Z.pos d)) as Qb
      by (rewrite pow2_nonneg by lia; rewrite <- Zle_Qle; exact Lb).
  assert (inject_Z (Z.pos d) < pow2 (b + 1)) as Qb'
      by (rewrite pow2_nonneg by lia; rewrite <- Zlt_Qlt; rewrite <- Z.add_1_r in Ub; exact Ub).
  assert (n # d < pow2 (a - b + 1)) as Hup.
  { rewrite Hnd. apply Qlt_shift_div_r; [exact Hdpos|].
    eapply Qlt_le_trans; [exact Qa'|].
    replace (a + 1)%Z with ((a - b + 1) + b)%Z by ring.
    rewrite pow2_plus. apply Qmult_le_l; [apply pow2_pos | exact Qb]. }
  assert (pow2 (a - b - 1) < n # d) as Hlo.
  { rewrite Hnd. apply Qlt_shift_div_l; [exact Hdpos|].
    eapply Qlt_le_trans; [|exact Qa].
    replace a with ((a - b - 1) + (b + 1))%Z at 2 by ring.
    rewrite pow2_plus. apply Qmult_lt_l; [apply pow2_pos | exact Qb']. }
  destruct (Qle_bool (pow2 (a - b)) (n # d)) eqn:T.
  - apply Qle_bool_iff in T. split; assumption.
  - assert (n # d < pow2 (a - b)) as T'.
    { apply Qnot_le_lt. intro L. apply Qle_bool_iff in L. congruence. }
    replace (a - b - 1 + 1)%Z with (a - b)%Z by ring.
    split; [apply Qlt_le_weak; exact Hlo | exact T'].
Qed.

Lemma ilog2_mono (x y : Q) : 0 < x -> x <= y -> (ilog2 x <= ilog2 y)%Z.
Proof.
  intros Hx Hxy.
  assert (0 < y) as Hy by (eapply Qlt_le_trans; eassumption).
  destruct (ilog2_spec x Hx) as [Lx _]. destruct (ilog2_spec y Hy) as [_ Uy].
  assert (pow2 (ilog2 x) < pow2 (ilog2 y + 1)) as H
      by (eapply Qle_lt_trans; [exact Lx|]; eapply Qle_lt_trans; eassumption).
  apply pow2_lt_inv in H. lia.
Qed.

Lemma rne_floor (m : Q) : (Qfloor m <= rne m <= Qfloor m + 1)%Z.
Proof.
  unfold rne. destruct (Qcompare _ _); [destruct (Z.even _)| |]; lia.
Qed.

Lemma rne_Z (z : Z) : rne (inject_Z z) = z.
Proof.
  unfold rne. rewrite Qfloor_Z.
  assert (inject_Z z - inject_Z z == 0) as H by ring.
  assert (Qcompare (inject_Z z - inject_Z z) (1 # 2) = Lt) as ->; [|reflexivity].
  apply Qlt_alt. rewrite H. reflexivity.
Qed.

Lemma rne_mono (m m' : Q) : m <= m' -> (rne m <= rne m')%Z.
Proof.
  intro H. pose proof (Qfloor_resp_le _ _ H) as Hf.
  pose proof (rne_floor m) as B. pose proof (rne_floor m') as B'.
  destruct (Z.eq_dec (Qfloor m) (Qfloor m')) as [E|N]; [|lia].
  unfold rne in *. rewrite <- E in *. clear B B' Hf.
  set (f := Qfloor m) in *.
  assert (m - inject_Z f <= m' - inject_Z f) as Hfr by lra.
  destruct (Qcompare (m - inject_Z f) (1 # 2)) eqn:C;
    destruct (Qcompare (m' - inject_Z f) (1 # 2)) eqn:C';
    try (destruct (Z.even f)); try lia;
    repeat match goal with
           | H : Qcompare _ _ = Eq |- _ => apply Qeq_alt in H
           | H : Qcompare _ _ = Lt |- _ => apply Qlt_alt in H
           | H : Qcompare _ _ = Gt |- _ => apply Qgt_alt in H
           end; lra.
Qed.

Lemma rne_comp (m m' : Q) : m == m' -> rne m = rne m'.
Proof.
  intro H. apply Z.le_antisymm; apply rne_mono; rewrite H; apply Qle_refl.
Qed.

Lemma round_pos_bounds (x : Q) :
  0 < x -> pow2 (ilog2 x) <= round_pos x /\ round_pos x <= pow2 (ilog2 x + 1).
Proof.
  intro Hx. destruct (ilog2_spec x Hx) as [L U].
  unfold round_pos. set (e := ilog2 x) in *. set (u := pow2 (e - 52)).
  assert (0 < u) as Hu by apply pow2_pos.
  assert (pow2 e == inject_Z (2 ^ 52) * u) as He.
  { unfold u. rewrite <- pow2_nonneg by lia. rewrite <- pow2_plus.
    replace (52 + (e - 52))%Z with e by ring. reflexivity. }
  assert (pow2 (e + 1) == inject_Z (2 ^ 53) * u) as He'.
  { unfold u. rewrite <- pow2_nonneg by lia. rewrite <- pow2_plus.
    replace (53 + (e - 52))%Z with (e + 1)%Z by ring. reflexivity. }
  assert (inject_Z (2 ^ 52) <= x / u) as Lm.
  { apply Qle_shift_div_l; [exact Hu|]. now rewrite <- He. }
  assert (x / u <= inject_Z (2 ^ 53)) as Um.
  { apply Qle_shift_div_r; [exact Hu|]. rewrite <- He'. now apply Qlt_le_weak. }
  apply rne_mono in Lm. apply rne_mono in Um. rewrite rne_Z in Lm, Um.
  rewrite He, He'. split; apply Qmult_le_compat_r; try (apply Qlt_le_weak; exact Hu);
    rewrite <- Zle_Qle; assumption.
Qed.

Lemma round_pos_mono (x y : Q) : 0 < x -> x <= y -> round_pos x <= round_pos y.
Proof.
  intros Hx Hxy.
  assert (0 < y) as Hy by (eapply Qlt_le_trans; eassumption).
  pose proof (ilog2_mono x y Hx Hxy) as He.
  destruct (Z.eq_dec (ilog2 x) (ilog2 y)) as [E|N].
  - unfold round_pos. rewrite E. set (u := pow2 (ilog2 y - 52)).
    assert (0 < u) as Hu by apply pow2_pos.
    apply Qmult_le_compat_r; [|apply Qlt_le_weak; exact Hu].
    rewrite <- Zle_Qle. apply rne_mono.
    apply Qmult_le_compat_r; [exact Hxy|].
    apply Qlt_le_weak, Qinv_lt_0_compat, Hu.
  - destruct (round_pos_bounds x Hx) as [_ Ux].
    destruct (round_pos_bounds y Hy) as [Ly _].
    eapply Qle_trans; [exact Ux|]. eapply Qle_trans; [|exact Ly].
    apply pow2_le. lia.
Qed.

Lemma round_pos_pos (x : Q) : 0 < x -> 0 < round_pos x.
Proof.
  intro Hx. destruct (round_pos_bounds x Hx) as [L _].
  eapply Qlt_le_trans; [apply pow2_pos | exact L].
Qed.

Lemma round64_mono (x y : Q) : x <= y -> round64 x <= round64 y.
Proof.
  intro H. unfold round64.
  destruct (Qcompare x 0) eqn:Cx; destruct (Qcompare y 0) eqn:Cy;
    repeat match goal with
           | H : Qcompare _ _ = Eq |- _ => apply Qeq_alt in H
           | H : Qcompare _ _ = Lt |- _ => apply Qlt_alt in H
           | H : Qcompare _ _ = Gt |- _ => apply Qgt_alt in H
           end;
    try (exfalso; lra).
  - apply Qle_refl.
  - apply Qlt_le_weak, round_pos_pos. exact Cy.
  - assert (0 < round_pos (- x)) by (apply round_pos_pos; lra). lra.
  - assert (round_pos (- y) <= round_pos (- x)) by (apply round_pos_mono; lra). lra.
  - assert (0 < round_pos (- x)) by (apply round_pos_pos; lra).
    assert (0 < round_pos y) by (apply round_pos_pos; lra). lra.
  - apply round_pos_mono; lra.
Qed.

Lemma round64_comp (x y : Q) : x == y -> round64 x == round64 y.
Proof.
  intro H. apply Qle_antisym; apply round64_mono; rewrite H; apply Qle_refl.
Qed.

Lemma ilog2_unique (x : Q) (e : Z) :
  pow2 e <= x -> x < pow2 (e + 1) -> ilog2 x = e.
Proof.
  intros L U.
  assert (0 < x) as Hx by (eapply Qlt_le_trans; [apply pow2_pos | exact L]).
  destruct (ilog2_spec x Hx) as [L' U'].
  assert (pow2 e < pow2 (ilog2 x + 1)) as H1 by (eapply Qle_lt_trans; eassumption).
  assert (pow2 (ilog2 x) < pow2 (e + 1)) as H2 by (eapply Qle_lt_trans; eassumption).
  apply pow2_lt_inv in H1, H2. lia.
Qed.

Lemma round64_exact (n s : Z) :
  (0 < n < 2 ^ 53)%Z ->
  round64 (inject_Z n * pow2 s) == inject_Z n * pow2 s.
Proof.
  intros [Hn Hn'].
  assert (0 < inject_Z n) as Qn by (rewrite Zlt_Qlt in Hn; exact Hn).
  pose proof (pow2_pos s) as Hs.
  assert (0 < inject_Z n * pow2 s) as Hx by (apply Qmult_lt_0_compat; assumption).
  unfold round64. apply Qgt_alt in Hx as Hc. rewrite Hc. clear Hc.
  set (a := Z.log2 n).
  destruct (Z.log2_spec n Hn) as [La Ua]. fold a in La, Ua.
  assert (0 <= a)%Z as Ha by apply Z.log2_nonneg.
  assert (a < 53)%Z as Ha'.
  { apply (Z.pow_lt_mono_r_iff 2); lia. }
  assert (ilog2 (inject_Z n * pow2 s) = (a + s)%Z) as He.
  { apply ilog2_unique.
    - rewrite pow2_plus. apply Qmult_le_compat_r; [|apply Qlt_le_weak; exact Hs].
      rewrite pow2_nonneg by lia. rewrite <- Zle_Qle. exact La.
    - replace (a + s + 1)%Z with ((a + 1) + s)%Z by ring.
      rewrite pow2_plus. apply Qmult_lt_compat_r; [exact Hs|].
      rewrite pow2_nonneg by lia. rewrite <- Zlt_Qlt.
      rewrite <- Z.add_1_r in Ua. exact Ua. }
  unfold round_pos. rewrite He.
  set (u := pow2 (a + s - 52)).
  assert (0 < u) as Hu by apply pow2_pos.
  assert (pow2 s == inject_Z (2 ^ (52 - a)) * u) as Hsu.
  { unfold u. rewrite <- pow2_nonneg by lia. rewrite <- pow2_plus.
    replace (52 - a + (a + s - 52))%Z with s by ring. reflexivity. }
  assert (inject_Z n * pow2 s / u == inject_Z (n * 2 ^ (52 - a))) as Hm.
  { rewrite Hsu, inject_Z_mult. field. intro H0. rewrite H0 in Hu. discriminate Hu. }
  rewrite (rne_comp _ _ Hm), rne_Z, Hsu, inject_Z_mult. ring.
Qed.

(** The float64 sum of an integer of the rank and a random number stays
    within the sixteenths next to the integer. *)
Lemma round64_rank (d : Z) (t : Q) :
  (0 <= d <= 22)%Z -> (1 # 16) <= t -> t <= (15 # 16) ->
  inject_Z d + (1 # 16) <= round64 (inject_Z d + t)
  /\ round64 (inject_Z d + t) <= inject_Z d + (15 # 16).
Proof.
  intros [H0 H22] Lt Ut.
  assert (round64 (inject_Z (16 * d + 1) * pow2 (-4))
          == inject_Z (16 * d + 1) * pow2 (-4)) as E1
      by (apply round64_exact; lia).
  assert (round64 (inject_Z (16 * d + 15) * pow2 (-4))
          == inject_Z (16 * d + 15) * pow2 (-4)) as E2
      by (apply round64_exact; lia).
  assert (pow2 (-4) == 1 # 16) as P4 by reflexivity.
  assert (inject_Z (16 * d + 1) * pow2 (-4) == inject_Z d + (1 # 16)) as V1.
  { rewrite P4, inject_Z_plus, inject_Z_mult.
    change (inject_Z 16) with 16. change (inject_Z 1) with 1. lra. }
  assert (inject_Z (16 * d + 15) * pow2 (-4) == inject_Z d + (15 # 16)) as V2.
  { rewrite P4, inject_Z_plus, inject_Z_mult.
    change (inject_Z 16) with 16. change (inject_Z 15) with 15. lra. }
  split.
  - rewrite <- V1, <- E1. apply round64_mono. rewrite V1. lra.
  - rewrite <- V2, <- E2. apply round64_mono. rewrite V2. lra.
Qed.

(** The samples of [np.random.uniform(0.1, 0.9)] grow with the double of
    the generator. *)
Lemma random_uniform_mono (u u' : Q) :
  u <= u' -> random_uniform 0.1 0.9 u <= random_uniform 0.1 0.9 u'.
Proof.
  intro H. unfold random_uniform. apply round64_mono.
  apply Qplus_le_r. apply round64_mono.
  apply Qmult_le_l; [vm_compute; reflexivity | exact H].
Qed.

(** For doubles of [0, 1] the samples lie between the float64 nearest to
    0.1 and the float64 nearest to 0.9; for doubles below 1, which are at
    most [1 - 2^-53], they are below 0.9. *)
Lemma random_uniform_range (u : Q) :
  0 <= u -> u <= 1 ->
  round64 0.1 <= random_uniform 0.1 0.9 u
  /\ random_uniform 0.1 0.9 u <= round64 0.9
  /\ (u <= 1 - (1 # 9007199254740992) -> random_uniform 0.1 0.9 u < 0.9).
Proof.
  intros L U.
  assert (random_uniform 0.1 0.9 0 == round64 0.1) as V0
      by (vm_compute; reflexivity).
  assert (random_uniform 0.1 0.9 1 == round64 0.9) as V1
      by (vm_compute; reflexivity).
  assert (random_uniform 0.1 0.9 (1 - (1 # 9007199254740992)) < 0.9) as V2
      by (vm_compute; reflexivity).
  split; [|split].
  - rewrite <- V0. now apply random_uniform_mono.
  - rewrite <- V1. now apply random_uniform_mono.
  - intro U'. eapply Qle_lt_trans; [|exact V2]. now apply random_uniform_mono.
Qed.

(** *** Lists and options *)

Lemma Qltb_lt (x y : Q) : Qltb x y = true <-> x < y.
Proof.
  unfold Qltb. rewrite negb_true_iff. split; intro H.
  - apply Qnot_le_lt. intro L. apply Qle_bool_iff in L. congruence.
  - destruct (Qle_bool y x) eqn:L; [|reflexivity].
    apply Qle_bool_iff in L. exfalso. exact (Qlt_not_le _ _ H L).
Qed.

Lemma obind_Some {A B} (o : option A) (k : A -> option B) (b : B) :
  obind o k = Some b -> exists a, o = Some a /\ k a = Some b.
Proof. destruct o as [a|]; simpl; [eauto | discriminate]. Qed.

Lemma mapM_Forall2 {A B} (f : A -> option B) (l : list A) (l' : list B) :
  mapM f l = Some l' -> Forall2 (fun a b => f a = Some b) l l'.
Proof.
  revert l'. induction l as [|a l IH]; simpl; intros l' H.
  - injection H as <-. constructor.
  - apply obind_Some in H as (b & Hb & H).
    apply obind_Some in H as (bs & Hbs & H).
    injection H as <-. constructor; auto.
Qed.

Lemma mapM_total {A B} (f : A -> option B) (l : list A) :
  (forall a, In a l -> exists b, f a = Some b) -> exists l', mapM f l = Some l'.
Proof.
  induction l as [|a l IH]; simpl; intro H.
  - eauto.
  - destruct (H a (or_introl eq_refl)) as (b & ->).
    destruct IH as (l' & ->); [intros; apply H; auto|].
    simpl. eauto.
Qed.

Lemma Forall2_In_r {A B} (R : A -> B -> Prop) l l' b :
  Forall2 R l l' -> In b l' -> exists a, In a l /\ R a b.
Proof.
  induction 1 as [|a b' l l' Hab _ IH]; simpl; [tauto|].
  intros [<-|Hin]; [eauto|].
  destruct (IH Hin) as (a' & ? & ?); eauto.
Qed.

Lemma Forall2_combine_In {A B} (R : A -> B -> Prop) l l' a b :
  Forall2 R l l' -> In (a, b) (combine l l') -> R a b.
Proof.
  induction 1 as [|a' b' l l' Hab _ IH]; simpl; [tauto|].
  intros [[= <- <-]|Hin]; auto.
Qed.

Lemma filter_length_le {A} (f : A -> bool) (l : list A) :
  (length (filter f l) <= length l)%nat.
Proof.
  induction l as [|a l IH]; simpl; [lia|].
  destruct (f a); simpl; lia.
Qed.

Section Properties.

Variable E : Externals.

(** *** The dijets of one event *)

Lemma sort_by_st_pair (a b : diJet.base) : sort_by_st [a; b] = Some (sort2 a b).
Proof.
  unfold sort_by_st, sort2, argsort_desc. simpl.
  destruct (Qle_bool (diJet.st b) (diJet.st a)); reflexivity.
Qed.

Lemma sort2_cases (a b : diJet.base) :
  (sort2 a b = [a; b] /\ diJet.st b <= diJet.st a)
  \/ (sort2 a b = [b; a] /\ diJet.st a <= diJet.st b).
Proof.
  unfold sort2. destruct (Qle_bool (diJet.st b) (diJet.st a)) eqn:L.
  - left. split; [reflexivity|]. now apply Qle_bool_iff.
  - right. split; [reflexivity|].
    apply Qlt_le_weak, Qnot_le_lt. intro L'. apply Qle_bool_iff in L'. congruence.
Qed.

Lemma event_diJet_four (j0 j1 j2 j3 : Jet.t) (rest : list Jet.t) :
  let js := j0 :: j1 :: j2 :: j3 :: rest in
  let m4j := v4j_mass E js in
  event_diJet E js =
  Some [slot E m4j (diJet_sum E j0 j1) (diJet_sum E j2 j3);
        slot E m4j (diJet_sum E j0 j2) (diJet_sum E j1 j3);
        slot E m4j (diJet_sum E j0 j3) (diJet_sum E j1 j2)].
Proof.
  intros js m4j. unfold event_diJet.
  cbn [getitem2 getitem pairing fst snd mapM obind nth_error js zipWith].
  rewrite !sort_by_st_pair. reflexivity.
Qed.

Lemma event_diJet_short (js : list Jet.t) :
  (length js < 4)%nat -> event_diJet E js = None.
Proof.
  intro H.
  destruct js as [|j0 [|j1 [|j2 [|j3 rest]]]]; simpl in H; try lia; reflexivity.
Qed.

Lemma survives_four (e : Event.t) :
  survives e = true ->
  exists j0 j1 j2 j3 rest, Event.Jet e = j0 :: j1 :: j2 :: j3 :: rest.
Proof.
  unfold survives, Event.nJet_selected. intro H. apply Nat.leb_le in H.
  pose proof (filter_length_le Jet.selected (Event.Jet e)) as L.
  destruct (Event.Jet e) as [|j0 [|j1 [|j2 [|j3 rest]]]];
    cbn [length] in L; try lia.
  now exists j0, j1, j2, j3, rest.
Qed.

Lemma event_diJet_inv (js : list Jet.t) (dj : list (list diJet.t)) :
  event_diJet E js = Some dj ->
  exists j0 j1 j2 j3 rest,
    js = j0 :: j1 :: j2 :: j3 :: rest
    /\ dj = [slot E (v4j_mass E js) (diJet_sum E j0 j1) (diJet_sum E j2 j3);
             slot E (v4j_mass E js) (diJet_sum E j0 j2) (diJet_sum E j1 j3);
             slot E (v4j_mass E js) (diJet_sum E j0 j3) (diJet_sum E j1 j2)].
Proof.
  intro H.
  destruct js as [|j0 [|j1 [|j2 [|j3 rest]]]];
    try (rewrite event_diJet_short in H by (simpl; lia); discriminate).
  rewrite event_diJet_four in H. injection H as <-.
  now exists j0, j1, j2, j3, rest.
Qed.

Lemma slot_cases (m4j : Q) (a b : diJet.base) :
  exists x y,
    slot E m4j a b = [cuts E m4j 0 x; cuts E m4j 1 y]
    /\ ((x = a /\ y = b) \/ (x = b /\ y = a))
    /\ diJet.st y <= diJet.st x.
Proof.
  unfold slot. destruct (sort2_cases a b) as [[-> L]|[-> L]].
  - exists a, b. auto.
  - exists b, a. auto.
Qed.

(** *** The random column *)

Lemma uniform_row_S (low high : Q) (n : nat) (s : Z) (k : nat) :
  uniform_row E low high (S n) (s, k) =
  (random_uniform low high (random_sample E s k)
     :: fst (uniform_row E low high n (s, S k)),
   snd (uniform_row E low high n (s, S k))).
Proof.
  simpl. unfold bind, uniform, ret.
  now destruct (uniform_row E low high n (s, S k)).
Qed.

Lemma uniform_size_S (low high : Q) (rows cols : nat) (g : rng) :
  uniform_size E low high (S rows) cols g =
  (fst (uniform_row E low high cols g)
     :: fst (uniform_size E low high rows cols
                          (snd (uniform_row E low high cols g))),
   snd (uniform_size E low high rows cols
                     (snd (uniform_row E low high cols g)))).
Proof.
  simpl. unfold bind, ret.
  destruct (uniform_row E low high cols g) as [row g']. simpl.
  now destruct (uniform_size E low high rows cols g').
Qed.

Lemma uniform_row_draws (low high : Q) (n : nat) (g : rng) :
  Forall (fun u => exists s k, u = random_uniform low high (random_sample E s k))
         (fst (uniform_row E low high n g)).
Proof.
  revert g. induction n as [|n IH]; intros [s k].
  - constructor.
  - rewrite uniform_row_S. simpl. constructor; eauto.
Qed.

Lemma uniform_size_draws (low high : Q) (rows cols : nat) (g : rng) :
  Forall (Forall (fun u => exists s k,
                      u = random_uniform low high (random_sample E s k)))
         (fst (uniform_size E low high rows cols g)).
Proof.
  revert g. induction rows as [|rows IH]; intro g.
  - constructor.
  - rewrite uniform_size_S. simpl. constructor; [apply uniform_row_draws | apply IH].
Qed.

Lemma uniform_row_length (low high : Q) (n : nat) (g : rng) :
  length (fst (uniform_row E low high n g)) = n.
Proof.
  revert g. induction n as [|n IH]; intros [s k].
  - reflexivity.
  - rewrite uniform_row_S. simpl. now rewrite IH.
Qed.

Lemma uniform_size_shape (low high : Q) (rows cols : nat) (g : rng) :
  length (fst (uniform_size E low high rows cols g)) = rows
  /\ Forall (fun row => length row = cols)
            (fst (uniform_size E low high rows cols g)).
Proof.
  revert g. induction rows as [|rows IH]; intro g.
  - split; [reflexivity | constructor].
  - rewrite uniform_size_S. simpl. destruct (IH (snd (uniform_row E low high cols g))) as [IH1 IH2].
    split; [now rewrite IH1|]. constructor; [apply uniform_row_length | assumption].
Qed.

(** *** The quadJets of one event *)

Lemma event_quadJet_inv (dj : list (list diJet.t)) (random : list Q)
  (qs : list quadJet.t) (q : quadJet.t) :
  event_quadJet E dj random = Some qs -> In q qs ->
  exists s r, In s dj /\ In r random /\ quadJet_zip E s r = Some q.
Proof.
  unfold event_quadJet. intros H Hq.
  apply mapM_Forall2 in H.
  destruct (Forall2_In_r _ _ _ _ H Hq) as ([s r] & Hin & Hz).
  exists s, r. simpl in Hz.
  split; [eapply in_combine_l; eassumption|].
  split; [eapply in_combine_r; eassumption | assumption].
Qed.

Lemma event_quadJet_length (dj : list (list diJet.t)) (random : list Q)
  (qs : list quadJet.t) :
  event_quadJet E dj random = Some qs ->
  length qs = Nat.min (length dj) (length random).
Proof.
  unfold event_quadJet. intro H. apply mapM_Forall2 in H.
  apply Forall2_length in H. rewrite <- H. apply length_combine.
Qed.

(** Every quadJet of an event is the zip of one of the three pairings of
    its first four jets, sorted by [st], with one entry of the random row. *)
Lemma candidate_inv (js : list Jet.t) (dj : list (list diJet.t))
  (random : list Q) (qs : list quadJet.t) (q : quadJet.t) :
  event_diJet E js = Some dj ->
  event_quadJet E dj random = Some qs ->
  In q qs ->
  exists j0 j1 j2 j3 rest a b x y r,
    js = j0 :: j1 :: j2 :: j3 :: rest
    /\ In (a, b) [(diJet_sum E j0 j1, diJet_sum E j2 j3);
                  (diJet_sum E j0 j2, diJet_sum E j1 j3);
                  (diJet_sum E j0 j3, diJet_sum E j1 j2)]
    /\ ((x = a /\ y = b) \/ (x = b /\ y = a))
    /\ diJet.st y <= diJet.st x
    /\ In r random
    /\ quadJet_zip E [cuts E (v4j_mass E js) 0 x; cuts E (v4j_mass E js) 1 y] r
       = Some q.
Proof.
  intros Hdj Hqs Hq.
  destruct (event_diJet_inv _ _ Hdj) as (j0 & j1 & j2 & j3 & rest & Hjs & ->).
  destruct (event_quadJet_inv _ _ _ _ Hqs Hq) as (s & r & Hs & Hr & Hz).
  exists j0, j1, j2, j3, rest.
  simpl in Hs. destruct Hs as [<-|[<-|[<-|[]]]].
  - destruct (slot_cases (v4j_mass E js) (diJet_sum E j0 j1) (diJet_sum E j2 j3))
      as (x & y & Hslot & Hxy & L).
    rewrite Hslot in Hz.
    exists (diJet_sum E j0 j1), (diJet_sum E j2 j3), x, y, r. simpl. auto 10.
  - destruct (slot_cases (v4j_mass E js) (diJet_sum E j0 j2) (diJet_sum E j1 j3))
      as (x & y & Hslot & Hxy & L).
    rewrite Hslot in Hz.
    exists (diJet_sum E j0 j2), (diJet_sum E j1 j3), x, y, r. simpl. auto 10.
  - destruct (slot_cases (v4j_mass E js) (diJet_sum E j0 j3) (diJet_sum E j1 j2))
      as (x & y & Hslot & Hxy & L).
    rewrite Hslot in Hz.
    exists (diJet_sum E j0 j3), (diJet_sum E j1 j2), x, y, r. simpl. auto 10.
Qed.

(** *** The selection *)

Lemma Qmax_cases (x y : Q) : Qmax x y = x \/ Qmax x y = y.
Proof.
  unfold Qmax, GenericMinMax.gmax. destruct (x ?= y); auto.
Qed.

Lemma fold_Qmax_In (l : list Q) (x : Q) :
  fold_left Qmax l x = x \/ In (fold_left Qmax l x) l.
Proof.
  revert x. induction l as [|y l IH]; intro x; simpl; [auto|].
  destruct (IH (Qmax x y)) as [H|H]; [|auto].
  rewrite H. destruct (Qmax_cases x y) as [->| ->]; auto.
Qed.

Lemma fold_Qmax_ge (l : list Q) (x : Q) :
  x <= fold_left Qmax l x /\ forall y, In y l -> y <= fold_left Qmax l x.
Proof.
  revert x. induction l as [|z l IH]; intro x; simpl.
  - split; [apply Qle_refl | tauto].
  - destruct (IH (Qmax x z)) as [H1 H2]. split.
    + eapply Qle_trans; [apply Q.le_max_l | exact H1].
    + intros y [<-|Hy]; [|auto].
      eapply Qle_trans; [apply Q.le_max_r | exact H1].
Qed.

Lemma np_max_In (l : list Q) (m : Q) : np_max l = Some m -> In m l.
Proof.
  destruct l as [|x l]; simpl; [discriminate|].
  intros [= <-]. destruct (fold_Qmax_In l x) as [->|H]; auto.
Qed.

Lemma np_max_ge (l : list Q) (m : Q) :
  np_max l = Some m -> forall y, In y l -> y <= m.
Proof.
  destruct l as [|x l]; simpl; [discriminate|].
  intros [= <-] y Hy. destruct (fold_Qmax_ge l x) as [H1 H2].
  destruct Hy as [<-|Hy]; auto.
Qed.

Lemma getmask_map {A} (f : A -> bool) (l : list A) :
  getmask l (map f l) = filter f l.
Proof.
  unfold getmask. induction l as [|a l IH]; simpl; [reflexivity|].
  destruct (f a); simpl; now rewrite IH.
Qed.

Lemma count_true_map {A} (f : A -> bool) (l : list A) :
  count_true (map f l) = length (filter f l).
Proof.
  unfold count_true. induction l as [|a l IH]; simpl; [reflexivity|].
  unfold id at 1. destruct (f a); simpl; now rewrite IH.
Qed.

(** The flags and the winner in terms of the maximal rank. *)
Lemma selected_spec (qs : list quadJet.t) :
  qs <> [] ->
  exists m,
    np_max (map quadJet.rank qs) = Some m
    /\ selected qs = map (fun q => Qeq_bool (quadJet.rank q) m) qs
    /\ quadJet_selected qs
       = nth_error (filter (fun q => Qeq_bool (quadJet.rank q) m) qs) 0
    /\ (exists q, In q qs /\ quadJet.rank q = m)
    /\ (forall q, In q qs -> quadJet.rank q <= m).
Proof.
  intro Hne. unfold quadJet_selected, selected.
  destruct (np_max (map quadJet.rank qs)) as [m|] eqn:Hm.
  - exists m. split; [reflexivity|]. split; [reflexivity|].
    split; [now rewrite getmask_map|]. split.
    + apply np_max_In in Hm. apply in_map_iff in Hm as (q & Hq & Hin). eauto.
    + intros q Hq. eapply np_max_ge; [exact Hm|]. now apply in_map.
  - destruct qs; [contradiction|discriminate].
Qed.

Lemma filter_hd_In {A} (f : A -> bool) (l : list A) (a : A) :
  In a l -> f a = true -> exists w, nth_error (filter f l) 0 = Some w.
Proof.
  induction l as [|b l IH]; simpl; [tauto|].
  intros [->|Hin] Hf.
  - rewrite Hf. simpl. eauto.
  - destruct (f b); simpl; eauto.
Qed.

Lemma filter_hd_first {A} (f : A -> bool) (l : list A) (w : A) :
  nth_error (filter f l) 0 = Some w ->
  exists i, nth_error l i = Some w /\ f w = true
            /\ forall j a, (j < i)%nat -> nth_error l j = Some a -> f a = false.
Proof.
  induction l as [|b l IH]; simpl; [discriminate|].
  destruct (f b) eqn:Hb; simpl.
  - intros [= ->]. exists 0%nat. repeat split; auto. intros; lia.
  - intro H. destruct (IH H) as (i & Hi & Hw & Hlt).
    exists (S i). repeat split; auto.
    intros [|j] a Hj; simpl; [now intros [= <-]|].
    apply Hlt. lia.
Qed.

Lemma quadJet_selected_total (qs : list quadJet.t) :
  qs <> [] ->
  exists w, quadJet_selected qs = Some w
            /\ In w qs
            /\ forall q, In q qs -> quadJet.rank q <= quadJet.rank w.
Proof.
  intro Hne.
  destruct (selected_spec qs Hne) as (m & _ & _ & Hsel & (q0 & Hq0 & Hr0) & Hmax).
  destruct (filter_hd_In (fun q => Qeq_bool (quadJet.rank q) m) qs q0 Hq0)
    as (w & Hw).
  { rewrite Hr0. apply Qeq_bool_iff. reflexivity. }
  exists w. rewrite Hsel. split; [exact Hw|].
  apply nth_error_In, filter_In in Hw as [Hin Heq].
  split; [exact Hin|]. intros q Hq.
  apply Qeq_bool_iff in Heq. rewrite Heq. now apply Hmax.
Qed.

(** At most one candidate carries the maximal rank when the ranks are
    pairwise different. *)
Lemma filter_rank_unique (qs : list quadJet.t) (m : Q) :
  ForallOrdPairs (fun a b => ~ quadJet.rank a == quadJet.rank b) qs ->
  (length (filter (fun q => Qeq_bool (quadJet.rank q) m) qs) <= 1)%nat.
Proof.
  induction 1 as [|a l Ha _ IH]; simpl; [lia|].
  destruct (Qeq_bool (quadJet.rank a) m) eqn:Hm; simpl; [|exact IH].
  apply Qeq_bool_iff in Hm.
  assert (filter (fun q => Qeq_bool (quadJet.rank q) m) l = []) as ->; [|simpl; lia].
  clear IH. induction l as [|b l IHl]; simpl; [reflexivity|].
  apply Forall_cons_iff in Ha as [Hab Ha].
  destruct (Qeq_bool (quadJet.rank b) m) eqn:Hb.
  - apply Qeq_bool_iff in Hb. exfalso. apply Hab. now rewrite Hm, Hb.
  - now apply IHl.
Qed.

(** *** The batch *)

Lemma quadJet_zip_pair (l s : diJet.t) (r : Q) :
  quadJet_zip E [l; s] r =
  Some (quadJet.mk l s (diJet.diJetMass l && diJet.diJetMass s) r
          (vec_delta_r E (diJet.p4 (diJet.kin l)) (diJet.p4 (diJet.kin s)))
          (xHH_of E l s)
          (SR_of (xHH_of E l s))
          (diJet.diJetMass l && diJet.diJetMass s && negb (SR_of (xHH_of E l s)))
          (rank_of l s r)).
Proof.
  unfold quadJet_zip. simpl. now rewrite andb_true_r.
Qed.

Lemma event_quadJet_three (s0 s1 s2 : list diJet.t) (random : list Q) :
  length s0 = 2%nat -> length s1 = 2%nat -> length s2 = 2%nat ->
  length random = 3%nat ->
  exists q0 q1 q2, event_quadJet E [s0; s1; s2] random = Some [q0; q1; q2].
Proof.
  intros H0 H1 H2 Hr.
  destruct s0 as [|a0 [|b0 [|]]]; try discriminate.
  destruct s1 as [|a1 [|b1 [|]]]; try discriminate.
  destruct s2 as [|a2 [|b2 [|]]]; try discriminate.
  destruct random as [|r0 [|r1 [|r2 [|]]]]; try discriminate.
  unfold event_quadJet. cbn [combine mapM fst snd].
  rewrite !quadJet_zip_pair. simpl. eauto.
Qed.

Lemma slot_length (m4j : Q) (a b : diJet.base) : length (slot E m4j a b) = 2%nat.
Proof.
  destruct (slot_cases m4j a b) as (x & y & -> & _). reflexivity.
Qed.

(** What [reconstruct] attaches to an event it returns. *)
Lemma reconstruct_inv (event : list Event.t) (g : rng) (rs : list Reco.t)
  (r : Reco.t) :
  fst (reconstruct E event g) = Some rs -> In r rs ->
  In (Reco.event r) event
  /\ event_diJet E (Event.Jet (Reco.event r)) = Some (Reco.diJet r)
  /\ exists random,
       length random = 3%nat
       /\ Forall (fun u => exists s k,
                     u = random_uniform 0.1 0.9 (random_sample E s k)) random
       /\ event_quadJet E (Reco.diJet r) random = Some (Reco.quadJet r)
       /\ quadJet_selected (Reco.quadJet r) = Some (Reco.quadJet_selected r).
Proof.
  unfold reconstruct. intros H Hr.
  destruct (mapM (fun e => event_diJet E (Event.Jet e)) event) as [dj|] eqn:D;
    [|discriminate].
  unfold bind, ret in H.
  pose proof (uniform_size_draws 0.1 0.9 (length dj) 3 g) as Hdraw.
  pose proof (uniform_size_shape 0.1 0.9 (length dj) 3 g) as [_ Hshape].
  destruct (uniform_size E 0.1 0.9 (length dj) 3 g) as [random g'].
  simpl in H, Hdraw, Hshape.
  apply mapM_Forall2 in H. apply mapM_Forall2 in D.
  destruct (Forall2_In_r _ _ _ _ H Hr) as ([[e d] row] & Hin & Hreco).
  simpl in Hreco.
  pose proof (in_combine_l _ _ _ _ Hin) as Hed.
  pose proof (in_combine_r _ _ _ _ Hin) as Hrow.
  unfold reco_event in Hreco.
  apply obind_Some in Hreco as (qs & Hqs & Hreco).
  apply obind_Some in Hreco as (w & Hw & Hreco).
  injection Hreco as <-. simpl.
  split; [eapply in_combine_l; eassumption|].
  split; [exact (Forall2_combine_In _ _ _ _ _ D Hed)|].
  exists row. rewrite Forall_forall in Hdraw, Hshape. auto.
Qed.

(** [reconstruct] never raises on events that passed the jet selection. *)
Lemma reconstruct_total (event : list Event.t) (g : rng) :
  Forall (fun e => survives e = true) event ->
  exists rs, fst (reconstruct E event g) = Some rs
             /\ map Reco.event rs = event.
Proof.
  intro Hs. unfold reconstruct.
  destruct (mapM_total (fun e => event_diJet E (Event.Jet e)) event) as (dj & D).
  { intros e He. rewrite Forall_forall in Hs.
    destruct (survives_four e (Hs e He)) as (j0 & j1 & j2 & j3 & rest & ->).
    rewrite event_diJet_four. eauto. }
  rewrite D. unfold bind, ret.
  pose proof (uniform_size_shape 0.1 0.9 (length dj) 3 g) as [Hlen Hshape].
  destruct (uniform_size E 0.1 0.9 (length dj) 3 g) as [random g'].
  simpl in *. apply mapM_Forall2 in D. clear Hs g g'.
  revert random Hlen Hshape.
  induction D as [|e d event dj Hed D IH]; intros random Hlen Hshape.
  - simpl. exists []. auto.
  - destruct random as [|row random]; [discriminate|].
    apply Forall_cons_iff in Hshape as [Hrow Hshape].
    simpl in Hlen. injection Hlen as Hlen.
    destruct (IH random Hlen Hshape) as (rs & Hrs & Hev).
    cbn [combine mapM fst snd]. rewrite Hrs.
    destruct (event_diJet_inv _ _ Hed) as (j0 & j1 & j2 & j3 & rest & _ & ->).
    set (m4j := v4j_mass E (Event.Jet e)).
    destruct (event_quadJet_three
                (slot E m4j (diJet_sum E j0 j1) (diJet_sum E j2 j3))
                (slot E m4j (diJet_sum E j0 j2) (diJet_sum E j1 j3))
                (slot E m4j (diJet_sum E j0 j3) (diJet_sum E j1 j2)) row
                (slot_length _ _ _) (slot_length _ _ _) (slot_length _ _ _) Hrow)
      as (q0 & q1 & q2 & Hq).
    unfold reco_event at 1. rewrite Hq. cbn [obind].
    destruct (quadJet_selected_total [q0; q1; q2]) as (w & Hw & _); [discriminate|].
    rewrite Hw. cbn [obind]. eexists. split; [reflexivity|].
    simpl. now rewrite Hev.
Qed.

(** Every quadJet of a reconstructed event, written out. *)
Lemma reco_candidate (event : list Event.t) (g : rng) (rs : list Reco.t)
  (r : Reco.t) (q : quadJet.t) :
  fst (reconstruct E event g) = Some rs -> In r rs -> In q (Reco.quadJet r) ->
  exists j0 j1 j2 j3 rest a b x y u,
    Event.Jet (Reco.event r) = j0 :: j1 :: j2 :: j3 :: rest
    /\ In (a, b) [(diJet_sum E j0 j1, diJet_sum E j2 j3);
                  (diJet_sum E j0 j2, diJet_sum E j1 j3);
                  (diJet_sum E j0 j3, diJet_sum E j1 j2)]
    /\ ((x = a /\ y = b) \/ (x = b /\ y = a))
    /\ diJet.st y <= diJet.st x
    /\ (exists s k, u = random_uniform 0.1 0.9 (random_sample E s k))
    /\ quadJet_zip E [cuts E (v4j_mass E (Event.Jet (Reco.event r))) 0 x;
                      cuts E (v4j_mass E (Event.Jet (Reco.event r))) 1 y] u
       = Some q.
Proof.
  intros H Hr Hq.
  destruct (reconstruct_inv _ _ _ _ H Hr)
    as (_ & Hdj & random & _ & Hdraw & Hqs & _).
  destruct (candidate_inv _ _ _ _ _ Hdj Hqs Hq)
    as (j0 & j1 & j2 & j3 & rest & a & b & x & y & u
        & Hjs & Hab & Hxy & Hst & Hu & Hz).
  exists j0, j1, j2, j3, rest, a, b, x, y, u.
  rewrite Forall_forall in Hdraw. auto 10.
Qed.

(** *** The pairings *)

(** The sort of line 89 on one reconstructed event. *)
Lemma sorted_by_st (event : list Event.t) (g : rng)
  (rs : list Reco.t) (r : Reco.t) :
  fst (reconstruct E event g) = Some rs -> In r rs ->
  (forall s, In s (Reco.diJet r) ->
     exists l sl, s = [l; sl]
                  /\ diJet.st (diJet.kin sl) <= diJet.st (diJet.kin l))
  /\ (forall q, In q (Reco.quadJet r) ->
        diJet.st (diJet.kin (quadJet.subl q))
        <= diJet.st (diJet.kin (quadJet.lead q))).
Proof.
  intros H Hr. split.
  - destruct (reconstruct_inv _ _ _ _ H Hr) as (_ & Hdj & _).
    destruct (event_diJet_inv _ _ Hdj) as (j0 & j1 & j2 & j3 & rest & _ & ->).
    intros s [<-|[<-|[<-|[]]]];
      match goal with
      | |- context [slot E ?m ?a ?b] =>
          destruct (slot_cases m a b) as (x & y & -> & _ & L)
      end; eauto.
  - intros q Hq.
    destruct (reco_candidate _ _ _ _ _ H Hr Hq)
      as (j0 & j1 & j2 & j3 & rest & a & b & x & y & u & _ & _ & _ & L & _ & Hz).
    rewrite quadJet_zip_pair in Hz. injection Hz as <-. exact L.
Qed.

Lemma slot_In (m4j : Q) (a b : diJet.base) (d : diJet.t) :
  In d (slot E m4j a b) -> diJet.kin d = a \/ diJet.kin d = b.
Proof.
  destruct (slot_cases m4j a b) as (x & y & -> & [[-> ->]|[-> ->]] & _);
    intros [<-|[<-|[]]]; auto.
Qed.

Lemma slot_constituents (m4j : Q) (a b : diJet.base) :
  Permutation (constituents (slot E m4j a b))
              [diJet.lead a; diJet.subl a; diJet.lead b; diJet.subl b].
Proof.
  destruct (slot_cases m4j a b) as (x & y & -> & [[-> ->]|[-> ->]] & _);
    unfold constituents; simpl.
  - apply Permutation_refl.
  - change [diJet.lead b; diJet.subl b; diJet.lead a; diJet.subl a]
      with ([diJet.lead b; diJet.subl b] ++ [diJet.lead a; diJet.subl a]).
    apply Permutation_app_comm.
Qed.

Lemma slot_covers (m4j : Q) (a b c : diJet.base) :
  c = a \/ c = b -> exists d, In d (slot E m4j a b) /\ diJet.kin d = c.
Proof.
  destruct (slot_cases m4j a b) as (x & y & -> & [[-> ->]|[-> ->]] & _);
    intros [-> | ->];
    first [ exists (cuts E m4j 0 a); split; [simpl; tauto | reflexivity]
          | exists (cuts E m4j 1 a); split; [simpl; tauto | reflexivity]
          | exists (cuts E m4j 0 b); split; [simpl; tauto | reflexivity]
          | exists (cuts E m4j 1 b); split; [simpl; tauto | reflexivity] ].
Qed.

(** The index pairs that the element-wise sum of line 83 puts together. *)
Lemma pairing_table :
  zipWith (zipWith pair) (fst pairing) (snd pairing)
  = [[(0, 1); (2, 3)]; [(0, 2); (1, 3)]; [(0, 3); (1, 2)]]%nat.
Proof. reflexivity. Qed.

(** C1: for an event with exactly four jets the three pairings built at
    lines 81-89 are the three partitions of the four jets into two pairs:
    every pairing holds two dijets whose four constituents are the four
    jets, each once; two different pairings have no dijet made of the same
    two jets; and any two different jets are the two jets of a dijet of one
    of the pairings. *)
Theorem C1_pairings_partition (js : list Jet.t) :
  length js = 4%nat ->
  exists s0 s1 s2,
    event_diJet E js = Some [s0; s1; s2]
    /\ (forall s, In s [s0; s1; s2] ->
          length s = 2%nat /\ Permutation (constituents s) js)
    /\ (NoDup js ->
        forall p p' s s' d d',
          p <> p' ->
          nth_error [s0; s1; s2] p = Some s ->
          nth_error [s0; s1; s2] p' = Some s' ->
          In d s -> In d' s' -> ~ same_pair d d')
    /\ (forall a b, In a js -> In b js -> a <> b ->
          exists s d,
            In s [s0; s1; s2] /\ In d s
            /\ ((diJet.lead (diJet.kin d) = a /\ diJet.subl (diJet.kin d) = b)
                \/ (diJet.lead (diJet.kin d) = b
                    /\ diJet.subl (diJet.kin d) = a))).
Proof.
  intro Hlen.
  destruct js as [|j0 [|j1 [|j2 [|j3 [|]]]]]; try discriminate. clear Hlen.
  rewrite event_diJet_four.
  set (m4j := v4j_mass E [j0; j1; j2; j3]).
  do 3 eexists. split; [reflexivity|]. split; [|split].
  - intros s [<-|[<-|[<-|[]]]]; (split; [apply slot_length|]);
      (eapply Permutation_trans; [apply slot_constituents|]); simpl.
    + apply Permutation_refl.
    + apply perm_skip, perm_swap.
    + apply perm_skip.
      eapply Permutation_trans; [apply perm_swap|]. apply perm_skip, perm_swap.
  - intros ND p p' s s' d d' Hp Hs Hs' Hd Hd' Hsame.
    assert (j0 <> j1 /\ j0 <> j2 /\ j0 <> j3 /\ j1 <> j2 /\ j1 <> j3 /\ j2 <> j3)
      as (n01 & n02 & n03 & n12 & n13 & n23).
    { repeat match goal with
             | H : NoDup (_ :: _) |- _ => inversion_clear H
             end.
      simpl in *. intuition congruence. }
    destruct p as [|[|[|p]]]; simpl in Hs;
      try (destruct p; discriminate); injection Hs as <-;
      (destruct p' as [|[|[|p']]]; simpl in Hs';
       try (destruct p'; discriminate); injection Hs' as <-);
      try congruence;
      apply slot_In in Hd; apply slot_In in Hd';
      unfold same_pair in Hsame;
      destruct Hd as [Hd|Hd], Hd' as [Hd'|Hd'];
      rewrite Hd, Hd' in Hsame; simpl in Hsame;
      intuition congruence.
  - intros a b Ha Hb Hab.
    assert (forall x y c, c = x \/ c = y ->
              In (slot E m4j x y)
                 [slot E m4j (diJet_sum E j0 j1) (diJet_sum E j2 j3);
                  slot E m4j (diJet_sum E j0 j2) (diJet_sum E j1 j3);
                  slot E m4j (diJet_sum E j0 j3) (diJet_sum E j1 j2)] ->
              (diJet.lead c = a /\ diJet.subl c = b)
              \/ (diJet.lead c = b /\ diJet.subl c = a) ->
              exists s d,
                In s [slot E m4j (diJet_sum E j0 j1) (diJet_sum E j2 j3);
                      slot E m4j (diJet_sum E j0 j2) (diJet_sum E j1 j3);
                      slot E m4j (diJet_sum E j0 j3) (diJet_sum E j1 j2)]
                /\ In d s
                /\ ((diJet.lead (diJet.kin d) = a
                     /\ diJet.subl (diJet.kin d) = b)
                    \/ (diJet.lead (diJet.kin d) = b
                        /\ diJet.subl (diJet.kin d) = a))) as Hcover.
    { intros x y c Hc Hin Hpair.
      destruct (slot_covers m4j x y c Hc) as (d & Hd & Hk).
      exists (slot E m4j x y), d. rewrite Hk. auto. }
    simpl in Ha, Hb.
    destruct Ha as [<-|[<-|[<-|[<-|[]]]]], Hb as [<-|[<-|[<-|[<-|[]]]]];
      try congruence;
      first
        [ apply (Hcover (diJet_sum E j0 j1) (diJet_sum E j2 j3) (diJet_sum E j0 j1));
          simpl; solve [auto]
        | apply (Hcover (diJet_sum E j0 j1) (diJet_sum E j2 j3) (diJet_sum E j2 j3));
          simpl; solve [auto]
        | apply (Hcover (diJet_sum E j0 j2) (diJet_sum E j1 j3) (diJet_sum E j0 j2));
          simpl; solve [auto]
        | apply (Hcover (diJet_sum E j0 j2) (diJet_sum E j1 j3) (diJet_sum E j1 j3));
          simpl; solve [auto]
        | apply (Hcover (diJet_sum E j0 j3) (diJet_sum E j1 j2) (diJet_sum E j0 j3));
          simpl; solve [auto]
        | apply (Hcover (diJet_sum E j0 j3) (diJet_sum E j1 j2) (diJet_sum E j1 j2));
          simpl; solve [auto] ].
Qed.

(** Where the two jets of a dijet come from. *)
Lemma lead_before_subl (event : list Event.t) (g : rng)
  (rs : list Reco.t) (r : Reco.t) (s : list diJet.t) (d : diJet.t) :
  fst (reconstruct E event g) = Some rs -> In r rs ->
  In s (Reco.diJet r) -> In d s ->
  exists j0 j1 j2 j3 rest,
    Event.Jet (Reco.event r) = j0 :: j1 :: j2 :: j3 :: rest
    /\ In (diJet.lead (diJet.kin d), diJet.subl (diJet.kin d))
          [(j0, j1); (j2, j3); (j0, j2); (j1, j3); (j0, j3); (j1, j2)]
    /\ (Jet.pt j1 <= Jet.pt j0 -> Jet.pt j2 <= Jet.pt j1 ->
        Jet.pt j3 <= Jet.pt j2 ->
        Jet.pt (diJet.subl (diJet.kin d)) <= Jet.pt (diJet.lead (diJet.kin d))).
Proof.
  intros H Hr Hs Hd.
  destruct (reconstruct_inv _ _ _ _ H Hr) as (_ & Hdj & _).
  destruct (event_diJet_inv _ _ Hdj) as (j0 & j1 & j2 & j3 & rest & Hjs & Heq).
  exists j0, j1, j2, j3, rest. split; [exact Hjs|].
  rewrite Heq in Hs.
  assert (forall x y z : Q, z <= y -> y <= x -> z <= x) as tr
      by (intros x y z A B; exact (Qle_trans _ _ _ A B)).
  destruct Hs as [<-|[<-|[<-|[]]]]; apply slot_In in Hd;
    destruct Hd as [-> | ->]; simpl; (split; [tauto|]); intros A B C; eauto.
Qed.

Lemma filter_length_full {A} (f : A -> bool) (l : list A) :
  (length l <= length (filter f l))%nat -> Forall (fun a => f a = true) l.
Proof.
  induction l as [|a l IH]; simpl; intro H; [constructor|].
  pose proof (filter_length_le f l) as L.
  destruct (f a) eqn:Fa; simpl in H; [|lia].
  constructor; [exact Fa | apply IH; lia].
Qed.

(** C2, as amended: the pairing stage of an event that passed the jet
    selection takes the jets at positions 0 to 3 of the jet list of the
    event, whatever their [selected] flag, and no other jet: every dijet is
    the sum of two of these four, and every pairing uses each of the four
    once.  When the event has exactly four jets, the four are selected and
    no unselected jet is part of a dijet. *)
Theorem C2_pairing_takes_first_four (e : Event.t) :
  survives e = true ->
  exists j0 j1 j2 j3 rest dj,
    Event.Jet e = j0 :: j1 :: j2 :: j3 :: rest
    /\ event_diJet E (Event.Jet e) = Some dj
    /\ (forall s, In s dj -> Permutation (constituents s) [j0; j1; j2; j3])
    /\ (forall s d, In s dj -> In d s ->
          exists a b, In a [j0; j1; j2; j3] /\ In b [j0; j1; j2; j3]
                      /\ diJet.kin d = diJet_sum E a b)
    /\ (rest = [] ->
        forall s, In s dj ->
          Forall (fun j => Jet.selected j = true) (constituents s)).
Proof.
  intro Hs.
  destruct (survives_four e Hs) as (j0 & j1 & j2 & j3 & rest & Hjs).
  exists j0, j1, j2, j3, rest. rewrite Hjs, event_diJet_four.
  set (m4j := v4j_mass E (j0 :: j1 :: j2 :: j3 :: rest)).
  eexists. split; [reflexivity|]. split; [reflexivity|].
  assert (forall s,
             In s [slot E m4j (diJet_sum E j0 j1) (diJet_sum E j2 j3);
                   slot E m4j (diJet_sum E j0 j2) (diJet_sum E j1 j3);
                   slot E m4j (diJet_sum E j0 j3) (diJet_sum E j1 j2)] ->
             Permutation (constituents s) [j0; j1; j2; j3]) as Hperm.
  { intros s [<-|[<-|[<-|[]]]];
      (eapply Permutation_trans; [apply slot_constituents|]); simpl.
    - apply Permutation_refl.
    - apply perm_skip, perm_swap.
    - apply perm_skip.
      eapply Permutation_trans; [apply perm_swap|]. apply perm_skip, perm_swap. }
  split; [exact Hperm|]. split.
  - intros s d [<-|[<-|[<-|[]]]] Hd; apply slot_In in Hd;
      destruct Hd as [-> | ->]; do 2 eexists;
      (split; [|split; [|reflexivity]]); simpl; tauto.
  - intros -> s Hin.
    unfold survives, Event.nJet_selected in Hs. rewrite Hjs in Hs.
    apply Nat.leb_le in Hs.
    pose proof (filter_length_full Jet.selected [j0; j1; j2; j3] Hs) as Hall.
    rewrite Forall_forall in Hall |- *.
    intros j Hj. apply Hall.
    eapply Permutation_in; [apply Hperm; exact Hin | exact Hj].
Qed.

(** *** The rank *)

Lemma draw_range (u : Q) :
  (forall s k, 0 <= random_sample E s k /\ random_sample E s k < 1) ->
  (exists s k, u = random_uniform 0.1 0.9 (random_sample E s k)) ->
  round64 0.1 <= u /\ u <= round64 0.9.
Proof.
  intros Hrange (s & k & ->). destruct (Hrange s k) as [L U].
  destruct (random_uniform_range _ L (Qlt_le_weak _ _ U)) as (A & B & _).
  split; assumption.
Qed.


Lemma discrete_range (q : quadJet.t) : (0 <= discrete q <= 22)%Z.
Proof.
  unfold discrete.
  destruct (diJet.diJetMass (quadJet.lead q)), (diJet.diJetMass (quadJet.subl q)),
    (diJet.drc (quadJet.lead q)), (diJet.drc (quadJet.subl q)); simpl; lia.
Qed.

(** The rank of the quadJets of one reconstructed event. *)
Lemma rank_by_discrete_terms (event : list Event.t) (g : rng)
  (rs : list Reco.t) (r : Reco.t) (q1 q2 : quadJet.t) :
  (forall s k, 0 <= random_sample E s k /\ random_sample E s k < 1) ->
  fst (reconstruct E event g) = Some rs -> In r rs ->
  In q1 (Reco.quadJet r) -> In q2 (Reco.quadJet r) ->
  quadJet.rank q1
  = round64 (inject_Z (10 * Z.b2z (diJet.diJetMass (quadJet.lead q1))
                       + 10 * Z.b2z (diJet.diJetMass (quadJet.subl q1))
                       + Z.b2z (diJet.drc (quadJet.lead q1))
                       + Z.b2z (diJet.drc (quadJet.subl q1)))
             + quadJet.random q1)
  /\ (exists s k,
        quadJet.random q1 = random_uniform 0.1 0.9 (random_sample E s k))
  /\ round64 0.1 <= quadJet.random q1 /\ quadJet.random q1 <= round64 0.9
  /\ inject_Z (discrete q1) < quadJet.rank q1
  /\ quadJet.rank q1 < inject_Z (discrete q1) + 1
  /\ ((discrete q1 < discrete q2)%Z -> quadJet.rank q1 < quadJet.rank q2).
Proof.
  intros Hrange H Hr Hq1 Hq2.
  pose proof (discrete_range q1) as R1. pose proof (discrete_range q2) as R2.
  assert (forall q, In q (Reco.quadJet r) ->
            quadJet.rank q = round64 (inject_Z (discrete q) + quadJet.random q)
            /\ (exists s k,
                  quadJet.random q
                  = random_uniform 0.1 0.9 (random_sample E s k)))
    as Hq.
  { intros q Hin.
    destruct (reco_candidate _ _ _ _ _ H Hr Hin)
      as (? & ? & ? & ? & ? & ? & ? & xa & ya & u & _ & _ & _ & _ & Hu & Hz).
    rewrite quadJet_zip_pair in Hz. injection Hz as <-.
    split; [reflexivity | exact Hu]. }
  destruct (Hq q1 Hq1) as [E1 Hu1]. destruct (Hq q2 Hq2) as [E2 Hu2].
  destruct (draw_range _ Hrange Hu1) as [L1 U1].
  destruct (draw_range _ Hrange Hu2) as [L2 U2].
  assert ((1 # 16) <= round64 0.1) as Lo by (vm_compute; discriminate).
  assert (round64 0.9 <= (15 # 16)) as Hi by (vm_compute; discriminate).
  destruct (round64_rank _ (quadJet.random q1) R1) as [A1 B1]; [lra | lra |].
  destruct (round64_rank _ (quadJet.random q2) R2) as [A2 B2]; [lra | lra |].
  rewrite <- E1 in A1, B1. rewrite <- E2 in A2, B2.
  split; [exact E1|]. split; [exact Hu1|]. split; [exact L1|].
  split; [exact U1|]. split; [lra|]. split; [lra|].
  intro Hlt.
  assert (inject_Z (discrete q1) + 1 <= inject_Z (discrete q2)) as Hstep.
  { rewrite <- (inject_Z_plus _ 1), <- Zle_Qle. lia. }
  lra.
Qed.

(** *** The regions *)

(** The region flags of one reconstructed event. *)
Lemma region_flags (event : list Event.t) (g : rng)
  (rs : list Reco.t) (r : Reco.t) :
  fst (reconstruct E event g) = Some rs -> In r rs ->
  (forall q, In q (Reco.quadJet r) ->
     (forall v, quadJet.xHH q = Some v ->
                (quadJet.SR q = true <-> v < 1.9))
     /\ (quadJet.xHH q = None -> quadJet.SR q = false)
     /\ quadJet.SB q = quadJet.diJetMass q && negb (quadJet.SR q)
     /\ (quadJet.SB q = true ->
         quadJet.diJetMass q = true /\ quadJet.SR q = false)
     /\ ~ (quadJet.SB q = true /\ quadJet.SR q = true))
  /\ (Reco.SB r = true -> Reco.diJetMass r = true /\ Reco.SR r = false).
Proof.
  intros H Hr.
  assert (forall q, In q (Reco.quadJet r) ->
            quadJet.SR q = SR_of (quadJet.xHH q)
            /\ quadJet.SB q = quadJet.diJetMass q && negb (quadJet.SR q))
    as Hflags.
  { intros q Hq.
    destruct (reco_candidate _ _ _ _ _ H Hr Hq)
      as (? & ? & ? & ? & ? & ? & ? & x & y & u & _ & _ & _ & _ & _ & Hz).
    rewrite quadJet_zip_pair in Hz. injection Hz as <-. simpl. auto. }
  split.
  - intros q Hq. destruct (Hflags q Hq) as [HSR HSB].
    split; [|split; [|split; [exact HSB|split]]].
    + intros v Hv. rewrite HSR, Hv. simpl. apply Qltb_lt.
    + intro Hn. now rewrite HSR, Hn.
    + rewrite HSB. intro Hb. apply andb_true_iff in Hb as [Hm Hn].
      now apply negb_true_iff in Hn.
    + rewrite HSB. intros [Hb Hs]. rewrite Hs, andb_false_r in Hb. discriminate.
  - destruct (reconstruct_inv _ _ _ _ H Hr) as (_ & _ & random & _ & _ & _ & Hw).
    unfold quadJet_selected in Hw. apply nth_error_In in Hw.
    unfold getmask in Hw. apply in_map_iff in Hw as ([w b] & Hwb & Hw).
    apply filter_In in Hw as [Hw _]. apply in_combine_l in Hw.
    simpl in Hwb. subst w.
    destruct (Hflags _ Hw) as [_ HSB].
    unfold Reco.SB, Reco.diJetMass, Reco.SR. rewrite HSB.
    intro Hb. apply andb_true_iff in Hb as [Hm Hn].
    now apply negb_true_iff in Hn.
Qed.

(** *** The selected quadJet *)

Lemma quadJet_zip_random (s : list diJet.t) (u : Q) (q : quadJet.t) :
  quadJet_zip E s u = Some q -> quadJet.random q = u.
Proof.
  unfold quadJet_zip. intro H.
  apply obind_Some in H as (l & _ & H).
  apply obind_Some in H as (sl & _ & H).
  now injection H as <-.
Qed.

Lemma event_quadJet_rerun (dj : list (list diJet.t)) (random : list Q)
  (qs : list quadJet.t) :
  length random = length dj ->
  event_quadJet E dj random = Some qs ->
  map quadJet.random qs = random.
Proof.
  unfold event_quadJet. revert random qs.
  induction dj as [|s dj IH]; intros [|u random] qs Hlen H;
    try discriminate; simpl in H.
  - now injection H as <-.
  - apply obind_Some in H as (q & Hq & H).
    apply obind_Some in H as (qs' & Hqs' & H).
    injection H as <-. simpl.
    rewrite (quadJet_zip_random _ _ _ Hq).
    f_equal. apply IH; [simpl in Hlen; lia | exact Hqs'].
Qed.

(** The flags and the winner of one reconstructed event. *)
Lemma selection_facts (event : list Event.t) (g : rng)
  (rs : list Reco.t) (r : Reco.t) :
  fst (reconstruct E event g) = Some rs -> In r rs ->
  length (Reco.quadJet r) = 3%nat
  /\ length (selected (Reco.quadJet r)) = 3%nat
  /\ (1 <= count_true (selected (Reco.quadJet r)))%nat
  /\ (ForallOrdPairs (fun a b => ~ quadJet.rank a == quadJet.rank b)
                     (Reco.quadJet r) ->
      count_true (selected (Reco.quadJet r)) = 1%nat)
  /\ (forall i q, nth_error (Reco.quadJet r) i = Some q ->
        exists b,
          nth_error (selected (Reco.quadJet r)) i = Some b
          /\ (b = true
              <-> quadJet.rank q == quadJet.rank (Reco.quadJet_selected r)))
  /\ (exists i,
        nth_error (Reco.quadJet r) i = Some (Reco.quadJet_selected r)
        /\ nth_error (selected (Reco.quadJet r)) i = Some true
        /\ forall j, (j < i)%nat ->
                     nth_error (selected (Reco.quadJet r)) j = Some false)
  /\ (forall q, In q (Reco.quadJet r) ->
        quadJet.rank q <= quadJet.rank (Reco.quadJet_selected r))
  /\ quadJet_selected (Reco.quadJet r) = Some (Reco.quadJet_selected r)
  /\ event_quadJet E (Reco.diJet r) (map quadJet.random (Reco.quadJet r))
     = Some (Reco.quadJet r).
Proof.
  intros H Hr.
  destruct (reconstruct_inv _ _ _ _ H Hr)
    as (_ & Hdj & random & Hlen & _ & Hqs & Hw).
  destruct (event_diJet_inv _ _ Hdj) as (j0 & j1 & j2 & j3 & rest & _ & Hdjeq).
  assert (length (Reco.quadJet r) = 3%nat) as Hlen3.
  { rewrite (event_quadJet_length _ _ _ Hqs), Hdjeq, Hlen. reflexivity. }
  assert (Reco.quadJet r <> []) as Hne by (intros Hnil; now rewrite Hnil in Hlen3).
  destruct (selected_spec _ Hne) as (m & _ & Hsel & Hfirst & _ & Hmax).
  rewrite Hfirst in Hw.
  destruct (filter_hd_first _ _ _ Hw) as (i & Hi & Hfw & Hbefore).
  assert (1 <= count_true (selected (Reco.quadJet r)))%nat as Hone.
  { rewrite Hsel, count_true_map.
    destruct (filter (fun q => Qeq_bool (quadJet.rank q) m) (Reco.quadJet r));
      [discriminate | simpl; lia]. }
  split; [exact Hlen3|].
  split; [now rewrite Hsel, length_map|].
  split; [exact Hone|].
  assert (ForallOrdPairs (fun a b => ~ quadJet.rank a == quadJet.rank b)
                         (Reco.quadJet r) ->
          count_true (selected (Reco.quadJet r)) = 1%nat) as Hexact.
  { intro Hdiff.
    pose proof (filter_rank_unique _ m Hdiff) as Hle.
    rewrite Hsel, count_true_map in Hone |- *. lia. }
  split; [exact Hexact|]. split.
  { intros k q Hk. exists (Qeq_bool (quadJet.rank q) m).
    split; [rewrite Hsel, nth_error_map, Hk; reflexivity|].
    apply Qeq_bool_iff in Hfw. rewrite Qeq_bool_iff, Hfw. reflexivity. }
  split.
  { exists i. split; [exact Hi|]. rewrite Hsel. split.
    - rewrite nth_error_map, Hi. simpl. now rewrite Hfw.
    - intros j Hj. rewrite nth_error_map.
      destruct (nth_error (Reco.quadJet r) j) as [a|] eqn:Ha.
      + simpl. now rewrite (Hbefore j a Hj Ha).
      + apply nth_error_None in Ha.
        assert (i < length (Reco.quadJet r))%nat
          by (apply nth_error_Some; congruence).
        lia. }
  split.
  { intros q Hq. apply Qeq_bool_iff in Hfw. rewrite Hfw. now apply Hmax. }
  split; [now rewrite Hfirst|].
  assert (length random = length (Reco.diJet r)) as Hsame
      by (rewrite Hdjeq, Hlen; reflexivity).
  rewrite (event_quadJet_rerun _ _ _ Hsame Hqs). exact Hqs.
Qed.

(** *** The dijet cuts *)

(** The mass flags of one quadJet. *)
Lemma mass_window (event : list Event.t) (g : rng)
  (rs : list Reco.t) (r : Reco.t) (q : quadJet.t) :
  fst (reconstruct E event g) = Some rs -> In r rs ->
  In q (Reco.quadJet r) ->
  (diJet.diJetMass (quadJet.lead q) = true
   <-> 52 < mass E (diJet.kin (quadJet.lead q))
       /\ mass E (diJet.kin (quadJet.lead q)) < 180)
  /\ (diJet.diJetMass (quadJet.subl q) = true
      <-> 50 < mass E (diJet.kin (quadJet.subl q))
          /\ mass E (diJet.kin (quadJet.subl q)) < 173)
  /\ quadJet.diJetMass q
     = diJet.diJetMass (quadJet.lead q) && diJet.diJetMass (quadJet.subl q).
Proof.
  intros H Hr Hq.
  destruct (reco_candidate _ _ _ _ _ H Hr Hq)
    as (? & ? & ? & ? & ? & ? & ? & xa & ya & u & _ & _ & _ & _ & _ & Hz).
  rewrite quadJet_zip_pair in Hz. injection Hz as <-.
  cbn [quadJet.lead quadJet.subl quadJet.diJetMass cuts diJet.diJetMass diJet.kin].
  unfold diJetMass_cut. cbn [nth minDiJetMass maxDiJetMass].
  rewrite !andb_true_iff, !Qltb_lt. repeat split; tauto.
Qed.

(** The bounds of the delta-r window at position [k], as float64. *)
Lemma drc_cut_spec (k : nat) (m4j : Q) (d : diJet.base) :
  drc_cut k m4j d = true
  <-> ~ m4j == 0
      /\ round64 (round64 (nth k min_m4j_scale 0 / m4j) + nth k min_dr_offset 0)
         < diJet.dr d
      /\ diJet.dr d
         < Qmax (round64 (round64 (nth k max_m4j_scale 0 / m4j)
                          + nth k max_dr_offset 0))
                (nth k max_dr 0).
Proof.
  unfold drc_cut.
  destruct (Qeq_bool m4j 0) eqn:Hz.
  - apply Qeq_bool_iff in Hz. split; [discriminate | tauto].
  - apply Qeq_bool_neq in Hz. rewrite andb_true_iff, !Qltb_lt. tauto.
Qed.

(** The delta-r flags of one quadJet. *)
Lemma dr_window (event : list Event.t) (g : rng)
  (rs : list Reco.t) (r : Reco.t) (q : quadJet.t) :
  let m4j := v4j_mass E (Event.Jet (Reco.event r)) in
  fst (reconstruct E event g) = Some rs -> In r rs ->
  In q (Reco.quadJet r) ->
  (diJet.drc (quadJet.lead q) = true
   <-> ~ m4j == 0
       /\ round64 (round64 (360 / m4j) + -0.5)
          < diJet.dr (diJet.kin (quadJet.lead q))
       /\ diJet.dr (diJet.kin (quadJet.lead q))
          < Qmax (round64 (round64 (650 / m4j) + 0.5)) 1.5)
  /\ (diJet.drc (quadJet.subl q) = true
      <-> ~ m4j == 0
          /\ round64 (round64 (235 / m4j) + 0.0)
             < diJet.dr (diJet.kin (quadJet.subl q))
          /\ diJet.dr (diJet.kin (quadJet.subl q))
             < Qmax (round64 (round64 (650 / m4j) + round64 0.7)) 1.5).
Proof.
  intros m4j H Hr Hq.
  destruct (reco_candidate _ _ _ _ _ H Hr Hq)
    as (? & ? & ? & ? & ? & ? & ? & xa & ya & u & _ & _ & _ & _ & _ & Hz).
  rewrite quadJet_zip_pair in Hz. injection Hz as <-.
  cbn [quadJet.lead quadJet.subl cuts diJet.drc diJet.kin].
  fold m4j.
  split.
  - exact (drc_cut_spec 0 m4j xa).
  - exact (drc_cut_spec 1 m4j ya).
Qed.

(** The lead window at [m4j = 400]: the float64 difference [360/400 - 0.5]
    is the float64 nearest to 0.4, which is above 0.4. *)
Lemma dr_window_400 :
  round64 (round64 (360 / 400) + -0.5) == round64 0.4
  /\ round64 0.4 == 3602879701896397 # 9007199254740992
  /\ 0.4 < round64 0.4
  /\ Qmax (round64 (round64 (650 / 400) + 0.5)) 1.5 == 2.125
  /\ (forall d, diJet.dr d == 1.0 -> drc_cut 0 400 d = true)
  /\ (forall d, diJet.dr d == 2.5 -> drc_cut 0 400 d = false)
  /\ (forall d, diJet.dr d == round64 0.4 -> drc_cut 0 400 d = false).
Proof.
  assert (round64 (round64 (360 / 400) + -0.5) == round64 0.4) as Lo
      by (vm_compute; reflexivity).
  assert (Qmax (round64 (round64 (650 / 400) + 0.5)) 1.5 == 2.125) as Hi
      by (vm_compute; reflexivity).
  assert (round64 0.4 == 3602879701896397 # 9007199254740992) as V
      by (vm_compute; reflexivity).
  assert (forall d x, diJet.dr d == x ->
            (drc_cut 0 400 d = true <-> round64 0.4 < x /\ x < 2.125)) as Hw.
  { intros d x Hd. rewrite drc_cut_spec.
    cbn [nth min_m4j_scale min_dr_offset max_m4j_scale max_dr_offset max_dr].
    rewrite Lo, Hi, Hd. split; [tauto|]. intros [? ?].
    split; [discriminate | tauto]. }
  split; [exact Lo|]. split; [exact V|]. split; [rewrite V; reflexivity|].
  split; [exact Hi|]. split; [|split].
  - intros d Hd. apply (Hw d _ Hd). rewrite V. split; reflexivity.
  - intros d Hd. destruct (drc_cut 0 400 d) eqn:Hc; [|reflexivity].
    apply (Hw d _ Hd) in Hc. destruct Hc as [_ Hc]. discriminate Hc.
  - intros d Hd. destruct (drc_cut 0 400 d) eqn:Hc; [|reflexivity].
    apply (Hw d _ Hd) in Hc. destruct Hc as [Hc _].
    exfalso. exact (Qlt_irrefl _ Hc).
Qed.

(** *** The events that pass the jet selection *)

Lemma preselection_survives (event : list Event.t) :
  Forall (fun e => survives e = true) (preselection event).
Proof.
  apply Forall_forall. intros e He.
  unfold preselection in He. apply filter_In in He as [_ He]. exact He.
Qed.

Lemma every_survivor_intro (batch : Batch) (g : rng) (P : Reco.t -> Prop) :
  (forall rs r,
      fst (reconstruct E (preselection (events batch)) g) = Some rs ->
      In r rs -> P r) ->
  every_survivor E batch g P.
Proof.
  intro HP.
  destruct (reconstruct_total (preselection (events batch)) g
              (preselection_survives _)) as (rs & Hrs & Hev).
  exists rs. split; [exact Hrs|]. split; [exact Hev|].
  intros r Hr. exact (HP rs r Hrs Hr).
Qed.

(** C8: after the sort of line 89 the two dijets of every pairing of every
    event that passed the jet selection are in descending order of [st]: the dijet at the
    lead position has an [st] greater than or equal to the one at the subl
    position, and so have [quadJet.lead] and [quadJet.subl]. *)
Theorem C8_lead_st_ge_subl_st (batch : Batch) (g : rng) :
  every_survivor E batch g (fun r =>
    (forall s, In s (Reco.diJet r) ->
       exists l sl, s = [l; sl]
                    /\ diJet.st (diJet.kin sl) <= diJet.st (diJet.kin l))
    /\ (forall q, In q (Reco.quadJet r) ->
          diJet.st (diJet.kin (quadJet.subl q))
          <= diJet.st (diJet.kin (quadJet.lead q)))).
Proof.
  apply every_survivor_intro. intros rs r H Hr.
  exact (sorted_by_st _ _ _ _ H Hr).
Qed.

(** C9, as amended: the jet stored as [lead] of a dijet is the one taken
    through [pairing[0]] and the jet stored as [subl] the one taken through
    [pairing[1]], so that [lead] stands before [subl] in the jet list of the
    event; when the first four jets of the event are in descending order of
    pt, the [lead] jet of every dijet has a pt greater than or equal to
    that of its [subl] jet. *)
Theorem C9_lead_before_subl (batch : Batch) (g : rng) :
  every_survivor E batch g (fun r =>
    forall s d, In s (Reco.diJet r) -> In d s ->
    exists j0 j1 j2 j3 rest,
      Event.Jet (Reco.event r) = j0 :: j1 :: j2 :: j3 :: rest
      /\ In (diJet.lead (diJet.kin d), diJet.subl (diJet.kin d))
            [(j0, j1); (j2, j3); (j0, j2); (j1, j3); (j0, j3); (j1, j2)]
      /\ (Jet.pt j1 <= Jet.pt j0 -> Jet.pt j2 <= Jet.pt j1 ->
          Jet.pt j3 <= Jet.pt j2 ->
          Jet.pt (diJet.subl (diJet.kin d))
          <= Jet.pt (diJet.lead (diJet.kin d)))).
Proof.
  apply every_survivor_intro. intros rs r H Hr s d Hs Hd.
  exact (lead_before_subl _ _ _ _ _ _ H Hr Hs Hd).
Qed.




(** C6: the mass flag of the dijet at the lead position of a quadJet is set
    exactly when [52 < mass < 180], the flag of the dijet at the subl
    position exactly when [50 < mass < 173], and [quadJet.diJetMass] is the
    conjunction of the two flags. *)
Theorem C6_mass_window (batch : Batch) (g : rng) :
  every_survivor E batch g (fun r =>
    forall q, In q (Reco.quadJet r) ->
    (diJet.diJetMass (quadJet.lead q) = true
     <-> 52 < mass E (diJet.kin (quadJet.lead q))
         /\ mass E (diJet.kin (quadJet.lead q)) < 180)
    /\ (diJet.diJetMass (quadJet.subl q) = true
        <-> 50 < mass E (diJet.kin (quadJet.subl q))
            /\ mass E (diJet.kin (quadJet.subl q)) < 173)
    /\ quadJet.diJetMass q
       = diJet.diJetMass (quadJet.lead q) && diJet.diJetMass (quadJet.subl q)).
Proof.
  apply every_survivor_intro. intros rs r H Hr q Hq.
  exact (mass_window _ _ _ _ _ H Hr Hq).
Qed.

(** C7: with [m4j] the mass of the summed jets of the event, the [drc]
    flag of the dijet at the lead position is set exactly when
    [360/m4j - 0.5 < dr < max(650/m4j + 0.5, 1.5)], and the flag of the
    dijet at the subl position exactly when
    [235/m4j + 0.0 < dr < max(650/m4j + 0.7, 1.5)], the bounds being
    computed in float64 as the source computes them; for [m4j = 0] the
    lower bound is [inf] and the flag is not set.  For [m4j = 400] the lead
    bounds are the float64 0.4 and 2.125: [dr = 1.0] passes, [dr = 2.5]
    fails, and so does a [dr] that is the float64 0.4. *)
Theorem C7_sliding_dr_window (batch : Batch) (g : rng) :
  every_survivor E batch g (fun r =>
    let m4j := v4j_mass E (Event.Jet (Reco.event r)) in
    forall q, In q (Reco.quadJet r) ->
    (diJet.drc (quadJet.lead q) = true
     <-> ~ m4j == 0
         /\ round64 (round64 (360 / m4j) + -0.5)
            < diJet.dr (diJet.kin (quadJet.lead q))
         /\ diJet.dr (diJet.kin (quadJet.lead q))
            < Qmax (round64 (round64 (650 / m4j) + 0.5)) 1.5)
    /\ (diJet.drc (quadJet.subl q) = true
        <-> ~ m4j == 0
            /\ round64 (round64 (235 / m4j) + 0.0)
               < diJet.dr (diJet.kin (quadJet.subl q))
            /\ diJet.dr (diJet.kin (quadJet.subl q))
               < Qmax (round64 (round64 (650 / m4j) + round64 0.7)) 1.5))
  /\ round64 (round64 (360 / 400) + -0.5) == round64 0.4
  /\ round64 0.4 == 3602879701896397 # 9007199254740992
  /\ 0.4 < round64 0.4
  /\ Qmax (round64 (round64 (650 / 400) + 0.5)) 1.5 == 2.125
  /\ (forall d, diJet.dr d == 1.0 -> drc_cut 0 400 d = true)
  /\ (forall d, diJet.dr d == 2.5 -> drc_cut 0 400 d = false)
  /\ (forall d, diJet.dr d == round64 0.4 -> drc_cut 0 400 d = false).
Proof.
  split; [|exact dr_window_400].
  apply every_survivor_intro. intros rs r H Hr m4j q Hq.
  exact (dr_window _ _ _ _ _ H Hr Hq).
Qed.

(** *** Determinism *)

(** C10: [process] seeds the generator with 0 before anything else, so its
    result (the output and the state the generator is left in) does not
    depend on the state of the generator at the call: two runs on the same
    batch give the same random numbers, the same reconstructed events with
    their winners and region flags, and the same output, also when other
    batches were processed in between. *)
Theorem C10_process_deterministic (batch prior : Batch) (g1 g2 : rng) :
  process E batch g1 = process E batch g2
  /\ (_ <~ np_random_seed 0 ;;
      uniform_size E 0.1 0.9 (length (events batch)) 3) g1
     = (_ <~ np_random_seed 0 ;;
        uniform_size E 0.1 0.9 (length (events batch)) 3) g2
  /\ (_ <~ np_random_seed 0 ;; reconstruct E (events batch)) g1
     = (_ <~ np_random_seed 0 ;; reconstruct E (events batch)) g2
  /\ process E batch (snd (process E prior g1)) = process E batch g1.
Proof.
  repeat split; unfold process, bind, np_random_seed; reflexivity.
Qed.

End Properties.


(** ** The rest of the file: properties *)

(** *** [count_nested_dict] *)

Lemma count_nested_dict_cons (k : string) (v : pyobj)
  (rest : list (string * pyobj)) (c : nat) :
  count_nested_dict ((k, v) :: rest) c = count_nested_dict rest (count_obj v c).
Proof. reflexivity. Qed.

Lemma count_obj_paths (v : pyobj) (c : nat) :
  count_obj v c = (c + length (paths v))%nat.
Proof.
  revert c. induction v as [|items IH] using pyobj_nested_ind; intro c.
  - simpl. lia.
  - change (count_obj (Dict items) c) with (count_nested_dict items c).
    revert c. induction IH as [|[k v] rest Hv _ IHrest]; intro c.
    + cbn. lia.
    + rewrite count_nested_dict_cons.
      change (count_obj (Dict rest)) with (count_nested_dict rest) in IHrest.
      rewrite IHrest. simpl in Hv. rewrite Hv.
      cbn [paths flat_map]. rewrite length_app, length_map.
      change (flat_map _ rest) with (paths (Dict rest)). lia.
Qed.

(** X1: [count_nested_dict(d, c)] is [c] plus the number of objects of [d]
    that are not dicts, at any depth (one per key path that ends on such an
    object); an empty dict, also a nested one, adds nothing. *)
Theorem count_nested_dict_counts_leaves (d : list (string * pyobj)) (c : nat) :
  count_nested_dict d c = (c + length (paths (Dict d)))%nat
  /\ count_nested_dict [] c = c
  /\ (forall k, count_nested_dict (d ++ [(k, Dict [])]) c
                = count_nested_dict d c).
Proof.
  split; [apply count_obj_paths|]. split; [reflexivity|].
  intro k. unfold count_nested_dict. rewrite !count_obj_paths.
  cbn [paths]. rewrite flat_map_app, length_app. simpl. lia.
Qed.

(** X2: counting the dict made of the items of two dicts is counting the
    first and going on from its result with the second; with [c = 0] the
    counts add up. *)
Theorem count_nested_dict_app (d1 d2 : list (string * pyobj)) (c : nat) :
  count_nested_dict (d1 ++ d2) c = count_nested_dict d2 (count_nested_dict d1 c)
  /\ count_nested_dict (d1 ++ d2) 0
     = (count_nested_dict d1 0 + count_nested_dict d2 0)%nat.
Proof.
  unfold count_nested_dict. rewrite !count_obj_paths.
  cbn [paths]. rewrite flat_map_app, length_app. lia.
Qed.

(** X3: the count does not depend on the order in which the dict is
    iterated. *)
Theorem count_nested_dict_order (d d' : list (string * pyobj)) (c : nat) :
  Permutation d d' -> count_nested_dict d c = count_nested_dict d' c.
Proof.
  intro HP. unfold count_nested_dict. rewrite !count_obj_paths.
  cbn [paths]. f_equal. apply Permutation_length.
  now apply Permutation_flat_map.
Qed.

(** *** The output of [process] *)

Section Coverage.

Variable E : Externals.

Lemma fill_cutflow_eq (out : Output) (event : list Event.t)
  (ds cut region : string) :
  cutflow (fill E out event ds cut region)
  = cutflow out ++ cutflow_entries ds cut region event.
Proof. reflexivity. Qed.

Lemma fill_hists_eq (out : Output) (event : list Event.t)
  (ds cut region : string) :
  hists_m4j (fill E out event ds cut region)
  = hists_m4j out
    ++ map (fun e => (ds, cut, region, v4j_mass E (Event.Jet e), Event.weight e))
           event.
Proof. reflexivity. Qed.

(** When an event passes the jet selection [process] returns, and its
    output is made of the events reconstructed after seeding the
    generator. *)
Lemma process_output (batch : Batch) (g : rng) :
  preselection (events batch) <> [] ->
  exists rs,
    fst (reconstruct E (preselection (events batch)) (0%Z, 0%nat)) = Some rs
    /\ map Reco.event rs = preselection (events batch)
    /\ process E batch g
       = (Some (output_of E batch rs),
          snd (reconstruct E (preselection (events batch)) (0%Z, 0%nat))).
Proof.
  intro Hne.
  destruct (reconstruct_total E (preselection (events batch)) (0%Z, 0%nat)
              (preselection_survives _)) as (rs & Hrs & Hev).
  exists rs. split; [exact Hrs|]. split; [exact Hev|].
  unfold process, bind, np_random_seed, output_of.
  destruct (preselection (events batch)) as [|e es] eqn:P; [contradiction|].
  destruct (reconstruct E (e :: es) (0%Z, 0%nat)) as [reco g'] eqn:R.
  simpl in Hrs. subst reco. reflexivity.
Qed.

(** When no event passes the jet selection [process] raises, after seeding
    the generator and before drawing from it. *)
Lemma process_raises (batch : Batch) (g : rng) :
  preselection (events batch) = [] -> process E batch g = (None, (0%Z, 0%nat)).
Proof.
  intro Hnil. unfold process, bind, np_random_seed. now rewrite Hnil.
Qed.

Lemma cutflow_output_of (batch : Batch) (rs : list Reco.t) :
  cutflow (output_of E batch rs)
  = cutflow_entries (dataset batch) "all" "inclusive" (events batch)
    ++ cutflow_entries (dataset batch) "preselection" "inclusive"
         (preselection (events batch))
    ++ cutflow_entries (dataset batch) "preselection" "diJetMass"
         (where_ Reco.diJetMass rs)
    ++ cutflow_entries (dataset batch) "preselection" "SB" (where_ Reco.SB rs)
    ++ cutflow_entries (dataset batch) "preselection" "SR" (where_ Reco.SR rs).
Proof.
  unfold output_of. rewrite !fill_cutflow_eq. simpl. now rewrite <- !app_assoc.
Qed.

Lemma filter_cutflow_entries (ds cut region c r : string)
  (event : list Event.t) :
  filter (fun f : string * string * string * Q =>
            let '(_, c', r', _) := f in String.eqb c' c && String.eqb r' r)
         (cutflow_entries ds cut region event)
  = if String.eqb cut c && String.eqb region r
    then cutflow_entries ds cut region event else [].
Proof.
  unfold cutflow_entries.
  induction event as [|e event IH]; simpl.
  - now destruct (String.eqb cut c && String.eqb region r).
  - rewrite IH. now destruct (String.eqb cut c && String.eqb region r).
Qed.

Lemma cutflow_in_output_of (batch : Batch) (rs : list Reco.t) :
  cutflow_in "all" "inclusive" (output_of E batch rs)
  = cutflow_entries (dataset batch) "all" "inclusive" (events batch)
  /\ cutflow_in "preselection" "inclusive" (output_of E batch rs)
     = cutflow_entries (dataset batch) "preselection" "inclusive"
         (preselection (events batch))
  /\ cutflow_in "preselection" "diJetMass" (output_of E batch rs)
     = cutflow_entries (dataset batch) "preselection" "diJetMass"
         (where_ Reco.diJetMass rs)
  /\ cutflow_in "preselection" "SB" (output_of E batch rs)
     = cutflow_entries (dataset batch) "preselection" "SB" (where_ Reco.SB rs)
  /\ cutflow_in "preselection" "SR" (output_of E batch rs)
     = cutflow_entries (dataset batch) "preselection" "SR" (where_ Reco.SR rs).
Proof.
  unfold cutflow_in. rewrite cutflow_output_of.
  rewrite !filter_app, !filter_cutflow_entries. cbn [String.eqb Ascii.eqb Bool.eqb andb].
  rewrite ?app_nil_r. repeat split; reflexivity.
Qed.

Lemma filter_length_mono {A} (f h : A -> bool) (l : list A) :
  (forall a, In a l -> f a = true -> h a = true) ->
  (length (filter f l) <= length (filter h l))%nat.
Proof.
  induction l as [|a l IH]; intro Hfh; simpl; [lia|].
  assert (length (filter f l) <= length (filter h l))%nat as IH'
      by (apply IH; intros; apply Hfh; simpl; auto).
  destruct (f a) eqn:Fa.
  - rewrite (Hfh a (or_introl eq_refl) Fa). simpl. lia.
  - destruct (h a); simpl; lia.
Qed.

Lemma filter_length_disjoint {A} (f h : A -> bool) (l : list A) :
  (forall a, In a l -> f a = true -> h a = false) ->
  (length (filter f l) + length (filter h l) <= length l)%nat.
Proof.
  induction l as [|a l IH]; intro Hfh; simpl; [lia|].
  assert (length (filter f l) + length (filter h l) <= length l)%nat as IH'
      by (apply IH; intros; apply Hfh; simpl; auto).
  destruct (f a) eqn:Fa.
  - rewrite (Hfh a (or_introl eq_refl) Fa). simpl. lia.
  - destruct (h a); simpl; lia.
Qed.

(** X4: [process] returns an output exactly when an event of the batch
    passes the jet selection; when none does it raises (the constants of
    line 95 do not broadcast against an empty array of dijets), the
    generator being seeded and not drawn from.  The cutflow of the output is
    nested: one fill per event under all/inclusive, which is [nEvent]; one
    per surviving event under preselection/inclusive; the diJetMass fills
    are at most as many as the survivors, the SB fills at most as many as
    the diJetMass fills, and the SB and SR fills together at most as many
    as the survivors; the cutflow holds these five groups of fills in this
    order and nothing else. *)
Theorem process_cutflow_nested (batch : Batch) (g : rng) :
  (fst (process E batch g) = None <-> preselection (events batch) = [])
  /\ (preselection (events batch) = [] ->
      snd (process E batch g) = (0%Z, 0%nat))
  /\ (preselection (events batch) <> [] ->
      exists out,
        fst (process E batch g) = Some out
        /\ nEvent out = length (events batch)
        /\ length (cutflow_in "all" "inclusive" out) = nEvent out
        /\ length (cutflow_in "preselection" "inclusive" out)
           = length (preselection (events batch))
        /\ (length (cutflow_in "preselection" "SB" out)
            <= length (cutflow_in "preselection" "diJetMass" out)
            <= length (cutflow_in "preselection" "inclusive" out))%nat
        /\ (length (cutflow_in "preselection" "inclusive" out)
            <= length (cutflow_in "all" "inclusive" out))%nat
        /\ (length (cutflow_in "preselection" "SB" out)
            + length (cutflow_in "preselection" "SR" out)
            <= length (cutflow_in "preselection" "inclusive" out))%nat
        /\ cutflow out
           = cutflow_in "all" "inclusive" out
             ++ cutflow_in "preselection" "inclusive" out
             ++ cutflow_in "preselection" "diJetMass" out
             ++ cutflow_in "preselection" "SB" out
             ++ cutflow_in "preselection" "SR" out).
Proof.
  split; [|split].
  - split.
    + intro Hnone.
      destruct (preselection (events batch)) as [|e es] eqn:P; [reflexivity|].
      assert (preselection (events batch) <> []) as Hne by (rewrite P; discriminate).
      destruct (process_output batch g Hne) as (rs & _ & _ & Hout).
      rewrite Hout in Hnone. discriminate Hnone.
    + intro Hnil. now rewrite (process_raises batch g Hnil).
  - intro Hnil. now rewrite (process_raises batch g Hnil).
  - intro Hne.
    destruct (process_output batch g Hne) as (rs & Hrs & Hev & Hout).
    exists (output_of E batch rs). split; [now rewrite Hout|].
    rewrite (cutflow_output_of batch rs) at 1.
    destruct (cutflow_in_output_of batch rs) as (-> & -> & -> & -> & ->).
    unfold cutflow_entries, where_. rewrite !length_map.
    assert (length rs = length (preselection (events batch))) as Hlen
        by (rewrite <- Hev; now rewrite length_map).
    assert (forall r, In r rs -> Reco.SB r = true ->
                      Reco.diJetMass r = true /\ Reco.SR r = false) as Hflag.
    { intros r Hr. exact (proj2 (region_flags E _ _ _ _ Hrs Hr)). }
    pose proof (filter_length_le Reco.diJetMass rs) as L1.
    pose proof (filter_length_mono Reco.SB Reco.diJetMass rs
                  (fun r Hr Hb => proj1 (Hflag r Hr Hb))) as L2.
    pose proof (filter_length_disjoint Reco.SB Reco.SR rs
                  (fun r Hr Hb => proj2 (Hflag r Hr Hb))) as L3.
    pose proof (filter_length_le (fun e => 4 <=? Event.nJet_selected e)%nat
                  (events batch)) as L4.
    fold (preselection (events batch)) in L4.
    split; [reflexivity|]. split; [reflexivity|]. split; [reflexivity|].
    repeat split; try reflexivity; lia.
Qed.

Lemma drop_mass_hists (out : Output) (event : list Event.t)
  (ds cut region : string) :
  map drop_mass (hists_m4j out) = cutflow out ->
  map drop_mass (hists_m4j (fill E out event ds cut region))
  = cutflow (fill E out event ds cut region).
Proof.
  intro H. rewrite fill_hists_eq, fill_cutflow_eq, map_app, H, map_map.
  reflexivity.
Qed.

(** X5: when [process] returns (an event passes the jet selection), the
    mass histogram and the cutflow are filled in step: the fills of the mass
    histogram are, in order and without their mass, the fills of the
    cutflow, the mass of a fill being the mass of the summed jets of its
    event; and [sumw] is [ak.sum] of the weights filled under
    all/inclusive. *)
Theorem process_histograms_in_step (batch : Batch) (g : rng) :
  preselection (events batch) <> [] ->
  exists out,
    fst (process E batch g) = Some out
    /\ map drop_mass (hists_m4j out) = cutflow out
    /\ (forall ds cut region m w,
          In (ds, cut, region, m, w) (hists_m4j out) ->
          exists e, In e (events batch)
                    /\ m = v4j_mass E (Event.Jet e) /\ w = Event.weight e
                    /\ ds = dataset batch)
    /\ sumw out = ak_sum E (map snd (cutflow_in "all" "inclusive" out)).
Proof.
  intro Hne.
  destruct (process_output batch g Hne) as (rs & Hrs & Hev & Hout).
  exists (output_of E batch rs). split; [now rewrite Hout|]. split; [|split].
  - unfold output_of. repeat apply drop_mass_hists. reflexivity.
  - intros ds cut region m w Hin.
    assert (forall flag e, In e (where_ flag rs) -> In e (events batch)) as Hsub.
    { intros flag e He. unfold where_ in He.
      apply in_map_iff in He as (r & <- & Hr). apply filter_In in Hr as [Hr _].
      assert (In (Reco.event r) (preselection (events batch))) as Hp
          by (rewrite <- Hev; now apply in_map).
      unfold preselection in Hp. now apply filter_In in Hp as [Hp _]. }
    assert (forall e, In e (preselection (events batch)) -> In e (events batch))
      as Hpre.
    { intros e He. unfold preselection in He. now apply filter_In in He as [He _]. }
    unfold output_of in Hin. rewrite !fill_hists_eq in Hin. simpl in Hin.
    rewrite !in_app_iff in Hin.
    repeat match goal with
           | H : _ \/ _ |- _ => destruct H as [H|H]
           end;
      apply in_map_iff in Hin as (e & [= <- <- <- <- <-] & He);
      exists e; eauto 6.
  - destruct (cutflow_in_output_of batch rs) as (-> & _).
    unfold cutflow_entries. rewrite map_map. reflexivity.
Qed.

(** *** Weights *)

Lemma preselection_reweight (f : Q -> Q) (event : list Event.t) :
  preselection (map (reweight f) event)
  = map (reweight f) (preselection event).
Proof.
  unfold preselection.
  induction event as [|e event IH]; cbn [map filter]; [reflexivity|].
  change (Event.nJet_selected (reweight f e)) with (Event.nJet_selected e).
  destruct (4 <=? Event.nJet_selected e)%nat; cbn [map]; now rewrite IH.
Qed.

Lemma mapM_ext_map {A A' B} (f : A -> option B) (h : A' -> A) (l : list A') :
  mapM f (map h l) = mapM (fun a => f (h a)) l.
Proof.
  induction l as [|a l IH]; simpl; [reflexivity|]. now rewrite IH.
Qed.

Lemma reco_rows_reweight (f : Q -> Q) (event : list Event.t)
  (dj : list (list (list diJet.t))) (random : list (list Q)) :
  mapM (fun edr => reco_event E (fst (fst edr)) (snd (fst edr)) (snd edr))
       (combine (combine (map (reweight f) event) dj) random)
  = option_map (map (reweight_reco f))
      (mapM (fun edr => reco_event E (fst (fst edr)) (snd (fst edr)) (snd edr))
            (combine (combine event dj) random)).
Proof.
  revert dj random.
  induction event as [|e event IH]; intros [|d dj] [|row random];
    try reflexivity.
  cbn [map combine mapM fst snd]. rewrite IH.
  unfold reco_event at 1 3.
  destruct (event_quadJet E d row) as [qs|]; [|reflexivity]. cbn [obind].
  destruct (quadJet_selected qs) as [w|]; [|reflexivity]. cbn [obind].
  destruct (mapM _ (combine (combine event dj) random)); reflexivity.
Qed.

Lemma reconstruct_reweight (f : Q -> Q) (event : list Event.t) (g : rng) :
  reconstruct E (map (reweight f) event) g
  = (option_map (map (reweight_reco f)) (fst (reconstruct E event g)),
     snd (reconstruct E event g)).
Proof.
  unfold reconstruct. rewrite mapM_ext_map.
  change (fun a => event_diJet E (Event.Jet (reweight f a)))
    with (fun a => event_diJet E (Event.Jet a)).
  destruct (mapM (fun a => event_diJet E (Event.Jet a)) event) as [dj|];
    [|reflexivity].
  unfold bind, ret.
  destruct (uniform_size E 0.1 0.9 (length dj) 3 g) as [random g'].
  simpl. now rewrite reco_rows_reweight.
Qed.

Lemma where_reweight (f : Q -> Q) (flag : Reco.t -> bool) (rs : list Reco.t) :
  (forall r, flag (reweight_reco f r) = flag r) ->
  where_ flag (map (reweight_reco f) rs) = map (reweight f) (where_ flag rs).
Proof.
  intro Hflag. unfold where_.
  induction rs as [|r rs IH]; simpl; [reflexivity|].
  rewrite Hflag. destruct (flag r); simpl; now rewrite IH.
Qed.

Lemma fill_reweight (f : Q -> Q) (out out' : Output) (event : list Event.t)
  (ds cut region : string) :
  cutflow out' = map (reweight_cutflow_fill f) (cutflow out) ->
  hists_m4j out' = map (reweight_hist_fill f) (hists_m4j out) ->
  cutflow (fill E out' (map (reweight f) event) ds cut region)
  = map (reweight_cutflow_fill f) (cutflow (fill E out event ds cut region))
  /\ hists_m4j (fill E out' (map (reweight f) event) ds cut region)
     = map (reweight_hist_fill f) (hists_m4j (fill E out event ds cut region)).
Proof.
  intros Hc Hh. rewrite !fill_cutflow_eq, !fill_hists_eq, Hc, Hh.
  unfold cutflow_entries. rewrite !map_app, !map_map. split; reflexivity.
Qed.

(** X6: the weights go through [process] untouched and decide nothing: on
    a batch with a surviving event, replacing the weight [w] of every event
    by [f w] leaves the selection, the regions, the masses and the state of
    the generator as they are and replaces the weight of every fill by its
    image; [nEvent] stays and [sumw] is [ak.sum] of the new weights. *)
Theorem process_weights_pass_through (f : Q -> Q) (batch : Batch) (g : rng) :
  preselection (events batch) <> [] ->
  exists out out',
    fst (process E batch g) = Some out
    /\ fst (process E (reweight_batch f batch) g) = Some out'
    /\ cutflow out' = map (reweight_cutflow_fill f) (cutflow out)
    /\ hists_m4j out' = map (reweight_hist_fill f) (hists_m4j out)
    /\ nEvent out' = nEvent out
    /\ sumw out' = ak_sum E (map f (map Event.weight (events batch)))
    /\ snd (process E (reweight_batch f batch) g) = snd (process E batch g).
Proof.
  intro Hne.
  destruct (process_output batch g Hne) as (rs & Hrs & Hev & Hout).
  assert (preselection (events (reweight_batch f batch)) <> []) as Hne'.
  { cbn [reweight_batch events]. rewrite preselection_reweight.
    destruct (preselection (events batch)); [contradiction | discriminate]. }
  destruct (process_output (reweight_batch f batch) g Hne')
    as (rs' & Hrs' & _ & Hout').
  cbn [reweight_batch events] in Hrs', Hout'.
  rewrite preselection_reweight, reconstruct_reweight in Hrs', Hout'.
  cbn [fst snd] in Hrs', Hout'. rewrite Hrs in Hrs'. injection Hrs' as <-.
  exists (output_of E batch rs),
         (output_of E (reweight_batch f batch) (map (reweight_reco f) rs)).
  split; [now rewrite Hout|]. split; [now rewrite Hout'|].
  assert (cutflow (output_of E (reweight_batch f batch) (map (reweight_reco f) rs))
          = map (reweight_cutflow_fill f) (cutflow (output_of E batch rs))
          /\ hists_m4j (output_of E (reweight_batch f batch)
                                  (map (reweight_reco f) rs))
             = map (reweight_hist_fill f) (hists_m4j (output_of E batch rs)))
    as [Hc Hh].
  { unfold output_of. cbn [reweight_batch events dataset].
    rewrite preselection_reweight, !where_reweight by reflexivity.
    repeat (apply fill_reweight;
            match goal with
            | |- cutflow _ = _ => idtac
            | |- hists_m4j _ = _ => idtac
            end);
      try reflexivity.
    all: match goal with
         | |- context [fill] => idtac
         | |- _ => reflexivity
         end. }
  split; [exact Hc|]. split; [exact Hh|]. split; [|split].
  - unfold output_of. cbn. now rewrite length_map.
  - unfold output_of. cbn [sumw fill fill_m4j fill_cutflow reweight_batch events].
    now rewrite !map_map.
  - now rewrite Hout, Hout'.
Qed.

(** *** The random numbers *)

Lemma uniform_row_nth (low high : Q) (n : nat) (s : Z) (k p : nat) (u : Q) :
  nth_error (fst (uniform_row E low high n (s, k))) p = Some u ->
  u = random_uniform low high (random_sample E s (k + p)).
Proof.
  revert k p. induction n as [|n IH]; intros k p H.
  - destruct p; discriminate.
  - rewrite uniform_row_S in H. destruct p as [|p]; simpl in H.
    + injection H as <-. now rewrite Nat.add_0_r.
    + apply IH in H. now rewrite Nat.add_succ_r.
Qed.

Lemma uniform_row_state (low high : Q) (n : nat) (s : Z) (k : nat) :
  snd (uniform_row E low high n (s, k)) = (s, (k + n)%nat).
Proof.
  revert k. induction n as [|n IH]; intro k.
  - simpl. now rewrite Nat.add_0_r.
  - rewrite uniform_row_S. simpl. rewrite IH. f_equal. lia.
Qed.

Lemma uniform_size_state (low high : Q) (rows cols : nat) (s : Z) (k : nat) :
  snd (uniform_size E low high rows cols (s, k)) = (s, (k + rows * cols)%nat).
Proof.
  revert k. induction rows as [|rows IH]; intro k.
  - simpl. now rewrite Nat.add_0_r.
  - rewrite uniform_size_S. cbn [snd]. rewrite uniform_row_state, IH.
    f_equal. lia.
Qed.

Lemma uniform_size_nth (low high : Q) (rows cols : nat) (s : Z) (k i p : nat)
  (row : list Q) (u : Q) :
  nth_error (fst (uniform_size E low high rows cols (s, k))) i = Some row ->
  nth_error row p = Some u ->
  u = random_uniform low high (random_sample E s (k + cols * i + p)).
Proof.
  revert k i. induction rows as [|rows IH]; intros k i Hrow Hu.
  - destruct i; discriminate.
  - rewrite uniform_size_S in Hrow. destruct i as [|i]; simpl in Hrow.
    + injection Hrow as <-. apply uniform_row_nth in Hu.
      now rewrite Nat.mul_0_r, Nat.add_0_r.
    + rewrite uniform_row_state in Hrow.
      rewrite (IH _ _ Hrow Hu). do 3 f_equal. lia.
Qed.

Lemma Forall2_nth_error_inv {A B} (R : A -> B -> Prop) (l : list A)
  (l' : list B) (i : nat) (b : B) :
  Forall2 R l l' -> nth_error l' i = Some b ->
  exists a, nth_error l i = Some a /\ R a b.
Proof.
  intro H. revert i. induction H as [|a b' l l' Hab _ IH]; intros [|i] Hi;
    try discriminate; simpl in *.
  - injection Hi as <-. eauto.
  - auto.
Qed.

Lemma nth_error_combine {A B} (l : list A) (l' : list B) (i : nat) (a : A)
  (b : B) :
  nth_error (combine l l') i = Some (a, b) ->
  nth_error l i = Some a /\ nth_error l' i = Some b.
Proof.
  revert l' i. induction l as [|x l IH]; intros [|y l'] [|i] H;
    try discriminate; simpl in *.
  - now injection H as <- <-.
  - auto.
Qed.

(** The random numbers and the generator for any start state. *)
Lemma reconstruct_random (event : list Event.t) (s : Z) (k : nat)
  (rs : list Reco.t) :
  fst (reconstruct E event (s, k)) = Some rs ->
  (forall i r p q,
      nth_error rs i = Some r -> nth_error (Reco.quadJet r) p = Some q ->
      quadJet.random q
      = random_uniform 0.1 0.9 (random_sample E s (k + 3 * i + p)))
  /\ snd (reconstruct E event (s, k)) = (s, (k + length event * 3)%nat).
Proof.
  intro H. unfold reconstruct in *.
  destruct (mapM (fun e => event_diJet E (Event.Jet e)) event) as [dj|] eqn:D;
    [|discriminate].
  unfold bind, ret in *.
  pose proof (uniform_size_nth 0.1 0.9 (length dj) 3 s k) as Hnth.
  pose proof (uniform_size_state 0.1 0.9 (length dj) 3 s k) as Hs.
  destruct (uniform_size E 0.1 0.9 (length dj) 3 (s, k)) as [random g'].
  simpl in H, Hnth, Hs |- *. split.
  - intros i r p q Hr Hq.
    apply mapM_Forall2 in H.
    destruct (Forall2_nth_error_inv _ _ _ _ _ H Hr) as ([[e d] row] & Hi & Hreco).
    apply nth_error_combine in Hi as [_ Hrow].
    simpl in Hreco. unfold reco_event in Hreco.
    apply obind_Some in Hreco as (qs & Hqs & Hreco).
    apply obind_Some in Hreco as (w & _ & Hreco).
    injection Hreco as <-. simpl in Hq.
    unfold event_quadJet in Hqs. apply mapM_Forall2 in Hqs.
    destruct (Forall2_nth_error_inv _ _ _ _ _ Hqs Hq) as ([sl u] & Hp & Hz).
    apply nth_error_combine in Hp as [_ Hu]. simpl in Hz.
    rewrite (quadJet_zip_random E _ _ _ Hz).
    exact (Hnth i p row u Hrow Hu).
  - apply mapM_Forall2, Forall2_length in D. now rewrite Hs, D.
Qed.

(** X7: the random number of a quadJet is fixed by its place in the batch:
    when [process] returns (an event passes the jet selection), the quadJet
    of pairing [p] of the [i]-th surviving event gets the sample of
    [np.random.uniform(0.1, 0.9)] made from the double number [3*i + p] of
    the generator seeded with 0, and the generator is left with three
    doubles drawn per surviving event, whatever state it was in. *)
Theorem process_random_by_position (batch : Batch) (g : rng) :
  preselection (events batch) <> [] ->
  exists rs,
    fst (reconstruct E (preselection (events batch)) (0%Z, 0%nat)) = Some rs
    /\ fst (process E batch g) = Some (output_of E batch rs)
    /\ snd (process E batch g)
       = (0%Z, (length (preselection (events batch)) * 3)%nat)
    /\ forall i r p q,
         nth_error rs i = Some r -> nth_error (Reco.quadJet r) p = Some q ->
         quadJet.random q
         = random_uniform 0.1 0.9 (random_sample E 0 (3 * i + p)).
Proof.
  intro Hne.
  destruct (process_output batch g Hne) as (rs & Hrs & _ & Hout).
  destruct (reconstruct_random _ _ _ _ Hrs) as [Hrand Hstate].
  exists rs. split; [exact Hrs|]. split; [now rewrite Hout|]. split.
  - rewrite Hout. exact Hstate.
  - exact Hrand.
Qed.

(** *** The preference of the selection *)

Lemma discrete_mass (q : quadJet.t) :
  (20 <= discrete q)%Z
  <-> diJet.diJetMass (quadJet.lead q) = true
      /\ diJet.diJetMass (quadJet.subl q) = true.
Proof.
  unfold discrete.
  destruct (diJet.diJetMass (quadJet.lead q)),
           (diJet.diJetMass (quadJet.subl q)),
           (diJet.drc (quadJet.lead q)), (diJet.drc (quadJet.subl q));
    simpl; split; intro H; try lia; try (destruct H; discriminate); auto.
Qed.

(** X8: the selection prefers the cuts: the selected quadJet is one of the
    three, none of the three has a larger sum of the integer terms of the
    rank, and the event passes [diJetMass] exactly when one of its quadJets
    does (the generator returning doubles of [0, 1)). *)
Theorem winner_prefers_cuts (batch : Batch) (g : rng) :
  (forall s k, 0 <= random_sample E s k /\ random_sample E s k < 1) ->
  every_survivor E batch g (fun r =>
    In (Reco.quadJet_selected r) (Reco.quadJet r)
    /\ (forall q, In q (Reco.quadJet r) ->
          (discrete q <= discrete (Reco.quadJet_selected r))%Z)
    /\ (Reco.diJetMass r = true
        <-> exists q, In q (Reco.quadJet r) /\ quadJet.diJetMass q = true)).
Proof.
  intro Hrange. apply every_survivor_intro. intros rs r H Hr.
  destruct (selection_facts E _ _ _ _ H Hr)
    as (_ & _ & _ & _ & _ & (i & Hi & _) & Hmax & _).
  apply nth_error_In in Hi.
  assert (forall q, In q (Reco.quadJet r) ->
            (discrete q <= discrete (Reco.quadJet_selected r))%Z) as Hdisc.
  { intros q Hq. apply Z.le_ngt. intro Hlt.
    destruct (rank_by_discrete_terms E _ _ _ _ _ _ Hrange H Hr Hi Hq)
      as (_ & _ & _ & _ & _ & _ & Hrank).
    exact (Qlt_not_le _ _ (Hrank Hlt) (Hmax q Hq)). }
  split; [exact Hi|]. split; [exact Hdisc|].
  unfold Reco.diJetMass. split.
  - intro Hw. eauto.
  - intros (q & Hq & Hm).
    destruct (mass_window E _ _ _ _ _ H Hr Hq) as (_ & _ & Hand).
    destruct (mass_window E _ _ _ _ _ H Hr Hi) as (_ & _ & ->).
    rewrite Hand in Hm. apply andb_true_iff in Hm.
    apply discrete_mass in Hm. specialize (Hdisc q Hq).
    apply andb_true_iff, discrete_mass. lia.
Qed.

(** *** The fields of a dijet *)


(** *** The higgs-mass residual and the regions *)

Lemma xH_of_Some (k : nat) (x : diJet.base) (a : Q) :
  xH_of E k x = Some a ->
  ~ 0.1 * mass E x == 0 /\ a * (0.1 * mass E x) == mass E x - nth k cH 0.
Proof.
  unfold xH_of. generalize (nth k cH 0). intro c.
  destruct (Qeq_bool (0.1 * mass E x) 0) eqn:Hz; [discriminate|].
  destruct (Qle_bool _ float64_max); [|discriminate].
  intros [= <-].
  assert (~ 0.1 * mass E x == 0) as Hne.
  { intro H0. apply Qeq_bool_iff in H0. congruence. }
  split; [exact Hne|]. field.
  intro H0. apply Hne. rewrite H0. reflexivity.
Qed.

Lemma xH_of_zero_mass (k : nat) (x : diJet.base) :
  mass E x == 0 -> xH_of E k x = None.
Proof.
  intro H. unfold xH_of.
  assert (0.1 * mass E x == 0) as H0 by (rewrite H; reflexivity).
  apply Qeq_bool_iff in H0. now rewrite H0.
Qed.

(** At the biased higgs mass the residual is zero, and finite. *)
Lemma xH_of_at_cH (k : nat) (x : diJet.base) :
  0 < nth k cH 0 -> mass E x == nth k cH 0 ->
  exists a, xH_of E k x = Some a /\ a == 0.
Proof.
  intros Hc Hm. unfold xH_of. revert Hc Hm. generalize (nth k cH 0). intros c Hc Hm.
  destruct (Qeq_bool (0.1 * mass E x) 0) eqn:Hz.
  { apply Qeq_bool_iff in Hz. rewrite Hm in Hz. lra. }
  assert ((mass E x - c) / (0.1 * mass E x) == 0) as H0.
  { rewrite Hm. unfold Qdiv. setoid_replace (c - c) with 0 by ring. ring. }
  assert (Qle_bool (Qabs ((mass E x - c) / (0.1 * mass E x))) float64_max = true)
    as ->.
  { apply Qle_bool_iff. rewrite H0. vm_compute. discriminate. }
  eexists. split; [reflexivity | exact H0].
Qed.

Lemma residual_window (c lo hi a m : Q) :
  0 < c -> lo * 1.19 <= c -> c <= hi * 0.81 ->
  ~ 0.1 * m == 0 ->
  a * (0.1 * m) == m - c -> a * a < 3.61 -> lo < m /\ m < hi.
Proof.
  intros Hc Hlo Hhi Hm Heq Hsq.
  assert (-1.9 < a /\ a < 1.9) as [La Ua] by (split; nra).
  assert (m * (1 - 0.1 * a) == c) as Hprod
      by (ring_simplify; ring_simplify in Heq; lra).
  assert (0 < m) as Hpos by nra.
  split; nra.
Qed.

Lemma xH_in_window (k : nat) (x : diJet.base) (a : Q) :
  (k < 2)%nat -> xH_of E k x = Some a -> a * a < 3.61 ->
  diJetMass_cut E k x = true.
Proof.
  intros Hk Hx Hsq. destruct (xH_of_Some k x a Hx) as [Hne Heq].
  unfold diJetMass_cut. apply andb_true_iff. rewrite !Qltb_lt.
  destruct k as [|[|k]]; [| |lia];
    cbn [nth cH st_bias map minDiJetMass maxDiJetMass] in *;
    (eapply residual_window; [| | |exact Hne|exact Heq|exact Hsq]);
    unfold mH; lra.
Qed.

(** X10: the signal region lies inside the mass windows: when [np.sqrt] is
    such that [np.sqrt(x) < 1.9] only for [x < 3.61], a quadJet with [SR]
    passes [diJetMass] (and is not [SB]), so that every event filled under
    SR is also filled under diJetMass. *)
Theorem SR_within_mass_windows (batch : Batch) (g : rng) :
  (forall x, np_sqrt E x < 1.9 -> x < 3.61) ->
  every_survivor E batch g (fun r =>
    (forall q, In q (Reco.quadJet r) -> quadJet.SR q = true ->
       quadJet.diJetMass q = true /\ quadJet.SB q = false)
    /\ (Reco.SR r = true -> Reco.diJetMass r = true)).
Proof.
  intro Hsqrt. apply every_survivor_intro. intros rs r H Hr.
  assert (forall q, In q (Reco.quadJet r) -> quadJet.SR q = true ->
            quadJet.diJetMass q = true /\ quadJet.SB q = false) as Hq.
  { intros q Hq HSR.
    destruct (reco_candidate E _ _ _ _ _ H Hr Hq)
      as (? & ? & ? & ? & ? & ? & ? & xa & ya & u & _ & _ & _ & _ & _ & Hz).
    rewrite quadJet_zip_pair in Hz. injection Hz as <-.
    cbn [quadJet.SR quadJet.SB quadJet.diJetMass] in *.
    rewrite HSR, andb_false_r. split; [|reflexivity].
    unfold xHH_of in HSR. cbn [cuts diJet.xH diJet.diJetMass] in *.
    destruct (xH_of E 0 xa) as [a|] eqn:Ha; [|discriminate].
    destruct (xH_of E 1 ya) as [b|] eqn:Hb; [|discriminate].
    cbn [obind SR_of] in HSR. apply Qltb_lt, Hsqrt in HSR.
    assert (a ^ 2 == a * a) as Ea by (simpl; ring).
    assert (b ^ 2 == b * b) as Eb by (simpl; ring).
    rewrite Ea, Eb in HSR.
    rewrite (xH_in_window 0 xa a), (xH_in_window 1 ya b); auto; nra. }
  split; [exact Hq|].
  destruct (selection_facts E _ _ _ _ H Hr)
    as (_ & _ & _ & _ & _ & (i & Hi & _) & _).
  apply nth_error_In in Hi. unfold Reco.SR, Reco.diJetMass.
  intro HSR. exact (proj1 (Hq _ Hi HSR)).
Qed.

Lemma xH_of_zero (k : nat) (x : diJet.base) (a : Q) :
  xH_of E k x = Some a ->
  ~ mass E x == 0 /\ (a == 0 <-> mass E x == nth k cH 0).
Proof.
  intro Ha. destruct (xH_of_Some k x a Ha) as [Hne Heq].
  split.
  - intro H0. apply Hne. rewrite H0. reflexivity.
  - split; intro H0.
    + rewrite H0 in Heq. lra.
    + assert (a * (0.1 * mass E x) == 0) as Hp by (rewrite Heq, H0; ring).
      apply Qmult_integral in Hp as [Hp|Hp]; [exact Hp | contradiction].
Qed.

(** X11: a dijet of mass zero has no finite residual [xH] (the source
    divides by [0.1*diJet.mass]); a finite residual is zero exactly at the
    biased higgs mass (127.5 at the lead position, 122.5 at the subl
    position), where the residual is finite; a quadJet with a dijet of mass
    zero has no finite [xHH] and is neither [SR] nor [SB]. *)
Theorem xH_edges (batch : Batch) (g : rng) :
  every_survivor E batch g (fun r =>
    forall q, In q (Reco.quadJet r) ->
    (mass E (diJet.kin (quadJet.lead q)) == 0
     -> diJet.xH (quadJet.lead q) = None)
    /\ (mass E (diJet.kin (quadJet.subl q)) == 0
        -> diJet.xH (quadJet.subl q) = None)
    /\ (forall a, diJet.xH (quadJet.lead q) = Some a ->
          ~ mass E (diJet.kin (quadJet.lead q)) == 0
          /\ (a == 0 <-> mass E (diJet.kin (quadJet.lead q)) == 127.5))
    /\ (forall b, diJet.xH (quadJet.subl q) = Some b ->
          ~ mass E (diJet.kin (quadJet.subl q)) == 0
          /\ (b == 0 <-> mass E (diJet.kin (quadJet.subl q)) == 122.5))
    /\ (mass E (diJet.kin (quadJet.lead q)) == 127.5 ->
        exists a, diJet.xH (quadJet.lead q) = Some a /\ a == 0)
    /\ (mass E (diJet.kin (quadJet.subl q)) == 122.5 ->
        exists b, diJet.xH (quadJet.subl q) = Some b /\ b == 0)
    /\ (mass E (diJet.kin (quadJet.lead q)) == 0
        \/ mass E (diJet.kin (quadJet.subl q)) == 0 ->
        quadJet.xHH q = None /\ quadJet.SR q = false
        /\ quadJet.SB q = false)).
Proof.
  apply every_survivor_intro. intros rs r H Hr q Hq.
  destruct (reco_candidate E _ _ _ _ _ H Hr Hq)
    as (? & ? & ? & ? & ? & ? & ? & xa & ya & u & _ & _ & _ & _ & _ & Hz).
  rewrite quadJet_zip_pair in Hz. injection Hz as <-.
  cbn [quadJet.lead quadJet.subl quadJet.xHH quadJet.SR quadJet.SB
       cuts diJet.xH diJet.kin diJet.diJetMass].
  assert (nth 0 cH 0 == 127.5) as C0 by reflexivity.
  assert (nth 1 cH 0 == 122.5) as C1 by reflexivity.
  split; [apply xH_of_zero_mass|]. split; [apply xH_of_zero_mass|].
  split; [|split; [|split; [|split]]].
  - intros a Ha. rewrite <- C0. exact (xH_of_zero 0 xa a Ha).
  - intros b Hb. rewrite <- C1. exact (xH_of_zero 1 ya b Hb).
  - intro Hm. apply xH_of_at_cH; [reflexivity | now rewrite Hm].
  - intro Hm. apply xH_of_at_cH; [reflexivity | now rewrite Hm].
  - intros [H0|H0].
    + assert (xHH_of E (cuts E (v4j_mass E (Event.Jet (Reco.event r))) 0 xa)
                       (cuts E (v4j_mass E (Event.Jet (Reco.event r))) 1 ya)
              = None) as ->.
      { unfold xHH_of. cbn [cuts diJet.xH].
        now rewrite (xH_of_zero_mass 0 xa H0). }
      assert (diJetMass_cut E 0 xa = false) as ->.
      { unfold diJetMass_cut. apply andb_false_iff. left.
        destruct (Qltb (nth 0 minDiJetMass 0) (mass E xa)) eqn:L; [|reflexivity].
        apply Qltb_lt in L. cbn [nth minDiJetMass] in L. rewrite H0 in L.
        discriminate L. }
      repeat split; reflexivity.
    + assert (xHH_of E (cuts E (v4j_mass E (Event.Jet (Reco.event r))) 0 xa)
                       (cuts E (v4j_mass E (Event.Jet (Reco.event r))) 1 ya)
              = None) as ->.
      { unfold xHH_of. cbn [cuts diJet.xH].
        rewrite (xH_of_zero_mass 1 ya H0).
        now destruct (xH_of E 0 xa). }
      assert (diJetMass_cut E 1 ya = false) as ->.
      { unfold diJetMass_cut. apply andb_false_iff. left.
        destruct (Qltb (nth 1 minDiJetMass 0) (mass E ya)) eqn:L; [|reflexivity].
        apply Qltb_lt in L. cbn [nth minDiJetMass] in L. rewrite H0 in L.
        discriminate L. }
      rewrite andb_false_r. repeat split; reflexivity.
Qed.

(** X12: a quadJet whose dijets sit at the biased higgs masses (127.5 at
    the lead position, 122.5 at the subl position) has both residuals zero
    and is in the signal region, passes [diJetMass] and is not [SB], when
    [np.sqrt] of zero is below 1.9. *)
Theorem SR_at_higgs_masses (batch : Batch) (g : rng) :
  (forall x, x == 0 -> np_sqrt E x < 1.9) ->
  every_survivor E batch g (fun r =>
    forall q, In q (Reco.quadJet r) ->
    mass E (diJet.kin (quadJet.lead q)) == 127.5 ->
    mass E (diJet.kin (quadJet.subl q)) == 122.5 ->
    quadJet.SR q = true /\ quadJet.diJetMass q = true
    /\ quadJet.SB q = false).
Proof.
  intro Hsqrt. apply every_survivor_intro. intros rs r H Hr q Hq.
  destruct (reco_candidate E _ _ _ _ _ H Hr Hq)
    as (? & ? & ? & ? & ? & ? & ? & xa & ya & u & _ & _ & _ & _ & _ & Hz).
  rewrite quadJet_zip_pair in Hz. injection Hz as <-.
  cbn [quadJet.lead quadJet.subl quadJet.SR quadJet.SB quadJet.diJetMass
       cuts diJet.xH diJet.kin diJet.diJetMass].
  intros Hl Hs.
  assert (diJetMass_cut E 0 xa = true) as ->.
  { unfold diJetMass_cut. apply andb_true_iff. rewrite !Qltb_lt.
    cbn [nth minDiJetMass maxDiJetMass]. rewrite Hl. split; reflexivity. }
  assert (diJetMass_cut E 1 ya = true) as ->.
  { unfold diJetMass_cut. apply andb_true_iff. rewrite !Qltb_lt.
    cbn [nth minDiJetMass maxDiJetMass]. rewrite Hs. split; reflexivity. }
  assert (SR_of (xHH_of E (cuts E (v4j_mass E (Event.Jet (Reco.event r))) 0 xa)
                        (cuts E (v4j_mass E (Event.Jet (Reco.event r))) 1 ya))
          = true) as ->.
  { unfold xHH_of. cbn [cuts diJet.xH].
    assert (nth 0 cH 0 == 127.5) as C0 by reflexivity.
    assert (nth 1 cH 0 == 122.5) as C1 by reflexivity.
    destruct (xH_of_at_cH 0 xa) as (a & -> & Ea);
      [reflexivity | now rewrite Hl |].
    destruct (xH_of_at_cH 1 ya) as (b & -> & Eb);
      [reflexivity | now rewrite Hs |].
    cbn [obind SR_of]. apply Qltb_lt, Hsqrt. rewrite Ea, Eb. reflexivity. }
  repeat split; reflexivity.
Qed.

(** *** Events with too few jets *)

Lemma mapM_None {A B} (f : A -> option B) (l : list A) :
  Exists (fun a => f a = None) l -> mapM f l = None.
Proof.
  induction 1 as [a l Ha|a l _ IH]; simpl.
  - now rewrite Ha.
  - rewrite IH. now destruct (f a).
Qed.

(** X13: the pairing of an event raises exactly when the event has fewer
    than four jets; [reconstruct] on events one of which has fewer than
    four jets raises before a random number is drawn (the generator keeps
    its state), which the jet selection rules out in [process]: every
    surviving event has at least four jets. *)
Theorem pairing_needs_four_jets (js : list Jet.t) (event : list Event.t)
  (g : rng) :
  (event_diJet E js = None <-> (length js < 4)%nat)
  /\ (Exists (fun e => (length (Event.Jet e) < 4)%nat) event ->
      reconstruct E event g = (None, g))
  /\ Forall (fun e => (4 <= length (Event.Jet e))%nat) (preselection event).
Proof.
  split; [|split].
  - split; [|apply event_diJet_short].
    intro H. destruct js as [|j0 [|j1 [|j2 [|j3 rest]]]]; simpl; try lia.
    rewrite event_diJet_four in H. discriminate.
  - intro Hex. unfold reconstruct. rewrite mapM_None; [reflexivity|].
    apply Exists_exists in Hex as (e & He & Hlen).
    apply Exists_exists. exists e. split; [exact He|].
    now apply event_diJet_short.
  - apply Forall_forall. intros e He.
    pose proof (preselection_survives event) as Hs.
    rewrite Forall_forall in Hs.
    destruct (survives_four e (Hs e He)) as (j0 & j1 & j2 & j3 & rest & ->).
    simpl. lia.
Qed.

(** *** One event at a time *)

Lemma uniform_row_eq (low high : Q) (n : nat) (s : Z) (k : nat) :
  fst (uniform_row E low high n (s, k))
  = map (fun p => random_uniform low high (random_sample E s (k + p)%nat)) (seq 0 n).
Proof.
  revert k. induction n as [|n IH]; intro k; [reflexivity|].
  rewrite uniform_row_S. cbn [fst seq map]. rewrite IH, Nat.add_0_r. f_equal.
  rewrite <- seq_shift, map_map. apply map_ext. intro p.
  now rewrite Nat.add_succ_r.
Qed.

Lemma uniform_size_row (low high : Q) (rows cols : nat) (s : Z) (k i : nat)
  (row : list Q) :
  nth_error (fst (uniform_size E low high rows cols (s, k))) i = Some row ->
  row = map (fun p => random_uniform low high (random_sample E s (k + cols * i + p)%nat))
            (seq 0 cols).
Proof.
  revert k i. induction rows as [|rows IH]; intros k i Hrow.
  - destruct i; discriminate.
  - rewrite uniform_size_S in Hrow. destruct i as [|i]; simpl in Hrow.
    + injection Hrow as <-. rewrite uniform_row_eq. apply map_ext. intro p.
      now rewrite Nat.mul_0_r, Nat.add_0_r.
    + rewrite uniform_row_state in Hrow. rewrite (IH _ _ Hrow).
      apply map_ext. intro p. do 3 f_equal. lia.
Qed.

(** X14: when it returns (an event passes the jet selection), [process]
    treats the surviving events one at a time: the [i]-th reconstructed
    event is the [i]-th surviving event with the dijets built from its own
    jets, the quadJets zipped from these dijets and the three random
    numbers of its place, and the quadJet selected among them; no other
    event of the batch enters. *)
Theorem process_event_by_event (batch : Batch) (g : rng) :
  preselection (events batch) <> [] ->
  exists rs,
    fst (reconstruct E (preselection (events batch)) (0%Z, 0%nat)) = Some rs
    /\ fst (process E batch g) = Some (output_of E batch rs)
    /\ length rs = length (preselection (events batch))
    /\ forall i e,
         nth_error (preselection (events batch)) i = Some e ->
         exists dj qs w,
           event_diJet E (Event.Jet e) = Some dj
           /\ event_quadJet E dj (random_row E 0 0 i) = Some qs
           /\ quadJet_selected qs = Some w
           /\ nth_error rs i = Some (Reco.mk e dj qs w).
Proof.
  intro Hne.
  destruct (process_output batch g Hne) as (rs & Hrs & Hev & Hout).
  exists rs. split; [exact Hrs|]. split; [now rewrite Hout|].
  assert (length rs = length (preselection (events batch))) as Hlen
      by (rewrite <- Hev; now rewrite length_map).
  split; [exact Hlen|].
  intros i e Hi.
  assert (exists r, nth_error rs i = Some r) as (r & Hr).
  { destruct (nth_error rs i) as [r|] eqn:Hr; [eauto|].
    apply nth_error_None in Hr.
    assert (i < length (preselection (events batch)))%nat
      by (apply nth_error_Some; congruence).
    lia. }
  assert (Reco.event r = e) as He.
  { pose proof (map_nth_error Reco.event _ _ Hr) as Hm.
    rewrite Hev, Hi in Hm. now injection Hm as <-. }
  unfold reconstruct in Hrs.
  destruct (mapM (fun e => event_diJet E (Event.Jet e))
                 (preselection (events batch))) as [djs|] eqn:D;
    [|discriminate].
  unfold bind, ret in Hrs.
  pose proof (uniform_size_row 0.1 0.9 (length djs) 3 0 0 i) as Hrow.
  destruct (uniform_size E 0.1 0.9 (length djs) 3 (0%Z, 0%nat)) as [random g'].
  cbn [fst] in Hrs, Hrow. apply mapM_Forall2 in Hrs. apply mapM_Forall2 in D.
  destruct (Forall2_nth_error_inv _ _ _ _ _ Hrs Hr)
    as ([[e' d] row] & Hc & Hreco).
  apply nth_error_combine in Hc as [Hc Hrw].
  apply nth_error_combine in Hc as [He' Hd].
  rewrite Hi in He'. injection He' as <-.
  simpl in Hreco. unfold reco_event in Hreco.
  apply obind_Some in Hreco as (qs & Hqs & Hreco).
  apply obind_Some in Hreco as (w & Hw & Hreco).
  injection Hreco as <-.
  exists d, qs, w. rewrite (Hrow row Hrw) in Hqs.
  split; [|split; [exact Hqs|split; [exact Hw|exact Hr]]].
  destruct (Forall2_nth_error_inv _ _ _ _ _ D Hd) as (e' & He' & Hdj).
  rewrite Hi in He'. injection He' as <-. exact Hdj.
Qed.

(** X15: the quadJets follow the pairings: a surviving event has three
    pairings of two dijets each and three quadJets, and the quadJet number
    [p] is made of the pairing number [p]: its [lead] and [subl] are the
    two dijets of the pairing in their order after the sort, and its [dr]
    is the delta-r of their two four-vectors. *)
Theorem quadJet_of_pairing (batch : Batch) (g : rng) :
  every_survivor E batch g (fun r =>
    length (Reco.diJet r) = 3%nat
    /\ length (Reco.quadJet r) = 3%nat
    /\ forall p q,
         nth_error (Reco.quadJet r) p = Some q ->
         nth_error (Reco.diJet r) p = Some [quadJet.lead q; quadJet.subl q]
         /\ quadJet.dr q
            = vec_delta_r E (diJet.p4 (diJet.kin (quadJet.lead q)))
                            (diJet.p4 (diJet.kin (quadJet.subl q)))).
Proof.
  apply every_survivor_intro. intros rs r H Hr.
  destruct (reconstruct_inv E _ _ _ _ H Hr)
    as (_ & Hdj & random & Hlen & _ & Hqs & _).
  destruct (event_diJet_inv E _ _ Hdj) as (j0 & j1 & j2 & j3 & rest & _ & Heq).
  split; [now rewrite Heq|].
  split; [rewrite (event_quadJet_length E _ _ _ Hqs), Heq, Hlen; reflexivity|].
  intros p q Hq.
  unfold event_quadJet in Hqs. apply mapM_Forall2 in Hqs.
  destruct (Forall2_nth_error_inv _ _ _ _ _ Hqs Hq) as ([sl u] & Hp & Hz).
  apply nth_error_combine in Hp as [Hs _]. simpl in Hz.
  assert (In sl (Reco.diJet r)) as Hin by (eapply nth_error_In; eassumption).
  rewrite Heq in Hin.
  destruct Hin as [<-|[<-|[<-|[]]]];
    match type of Hz with
    | context [slot E ?m ?a ?b] =>
        destruct (slot_cases E m a b) as (x & y & Hslot & _ & _)
    end;
    rewrite Hslot in Hz, Hs; rewrite quadJet_zip_pair in Hz;
    injection Hz as <-; (split; [exact Hs | reflexivity]).
Qed.

End Coverage.

(** ** The statements on concrete events *)

Lemma toy_range (s : Z) (k : nat) :
  0 <= random_sample toy s k /\ random_sample toy s k < 1.
Proof.
  change (random_sample toy s k) with (inject_Z (Z.of_nat (k mod 7)) / 7).
  pose proof (Nat.mod_upper_bound k 7 ltac:(discriminate)) as U.
  assert (0 <= Z.of_nat (k mod 7) < 7)%Z as B by lia.
  revert B. generalize (Z.of_nat (k mod 7)). intros n B.
  unfold Qdiv, Qle, Qlt, Qmult, Qinv, inject_Z. simpl. lia.
Qed.


Lemma C1_witness :
  exists s0 s1 s2,
    event_diJet toy (Event.Jet ev_sorted) = Some [s0; s1; s2]
    /\ (forall s, In s [s0; s1; s2] ->
          length s = 2%nat /\ Permutation (constituents s) (Event.Jet ev_sorted))
    /\ (NoDup (Event.Jet ev_sorted) ->
        forall p p' s s' d d',
          p <> p' ->
          nth_error [s0; s1; s2] p = Some s ->
          nth_error [s0; s1; s2] p' = Some s' ->
          In d s -> In d' s' -> ~ same_pair d d')
    /\ (forall a b, In a (Event.Jet ev_sorted) -> In b (Event.Jet ev_sorted) ->
          a <> b ->
          exists s d,
            In s [s0; s1; s2] /\ In d s
            /\ ((diJet.lead (diJet.kin d) = a /\ diJet.subl (diJet.kin d) = b)
                \/ (diJet.lead (diJet.kin d) = b
                    /\ diJet.subl (diJet.kin d) = a))).
Proof.
  apply (C1_pairings_partition toy (Event.Jet ev_sorted)). reflexivity.
Defined.

Lemma C2_witness :
  exists j0 j1 j2 j3 rest dj,
    Event.Jet ev_sorted = j0 :: j1 :: j2 :: j3 :: rest
    /\ event_diJet toy (Event.Jet ev_sorted) = Some dj
    /\ (forall s, In s dj -> Permutation (constituents s) [j0; j1; j2; j3])
    /\ (forall s d, In s dj -> In d s ->
          exists a b, In a [j0; j1; j2; j3] /\ In b [j0; j1; j2; j3]
                      /\ diJet.kin d = diJet_sum toy a b)
    /\ (rest = [] ->
        forall s, In s dj ->
          Forall (fun j => Jet.selected j = true) (constituents s)).
Proof.
  apply (C2_pairing_takes_first_four toy ev_sorted). reflexivity.
Defined.

(** The event [ev_five] passes the jet selection with its jets 1 to 4; the
    pairings are made of its jets 0 to 3: the soft jet 0 is the [lead] of
    the dijet at the subl position of the first pairing, and the selected
    jet 4 is in no dijet. *)
Lemma C2_counterexample :
  survives ev_five = true
  /\ map Jet.selected (Event.Jet ev_five) = [false; true; true; true; true]
  /\ exists dj s d,
      event_diJet toy (Event.Jet ev_five) = Some dj
      /\ nth_error dj 0 = Some s
      /\ nth_error s 1 = Some d
      /\ diJet.lead (diJet.kin d) = central 10 5
      /\ Jet.selected (diJet.lead (diJet.kin d)) = false
      /\ forall s', In s' dj -> ~ In (central 60 20) (constituents s').
Proof.
  split; [reflexivity|]. split; [reflexivity|].
  do 3 eexists.
  split; [vm_compute; reflexivity|].
  split; [reflexivity|]. split; [reflexivity|].
  split; [reflexivity|]. split; [reflexivity|].
  intros s' [<-|[<-|[<-|[]]]] Hin; simpl in Hin;
    repeat (destruct Hin as [Hin|Hin]; [discriminate Hin|]); exact Hin.
Qed.






Lemma C6_witness :
  exists r q,
    In r run_sorted /\ In q (Reco.quadJet r)
    /\ (diJet.diJetMass (quadJet.lead q) = true
        <-> 52 < mass toy (diJet.kin (quadJet.lead q))
            /\ mass toy (diJet.kin (quadJet.lead q)) < 180)
    /\ (diJet.diJetMass (quadJet.subl q) = true
        <-> 50 < mass toy (diJet.kin (quadJet.subl q))
            /\ mass toy (diJet.kin (quadJet.subl q)) < 173)
    /\ quadJet.diJetMass q
       = diJet.diJetMass (quadJet.lead q) && diJet.diJetMass (quadJet.subl q).
Proof.
  pose proof (C6_mass_window toy chunk (7%Z, 5%nat)) as H.
  run_chunk H.
  do 2 eexists.
  split; [left; reflexivity|]. split; [left; reflexivity|].
  eapply (HP _ (or_introl eq_refl)). left. reflexivity.
Defined.

Lemma C7_witness :
  exists r q,
    In r run_sorted /\ In q (Reco.quadJet r)
    /\ v4j_mass toy (Event.Jet (Reco.event r)) == 400
    /\ (diJet.drc (quadJet.lead q) = true
        <-> ~ v4j_mass toy (Event.Jet (Reco.event r)) == 0
            /\ round64 (round64 (360 / v4j_mass toy (Event.Jet (Reco.event r)))
                        + -0.5)
               < diJet.dr (diJet.kin (quadJet.lead q))
            /\ diJet.dr (diJet.kin (quadJet.lead q))
               < Qmax (round64
                         (round64 (650 / v4j_mass toy (Event.Jet (Reco.event r)))
                          + 0.5))
                      1.5)
    /\ (diJet.drc (quadJet.subl q) = true
        <-> ~ v4j_mass toy (Event.Jet (Reco.event r)) == 0
            /\ round64 (round64 (235 / v4j_mass toy (Event.Jet (Reco.event r)))
                        + 0.0)
               < diJet.dr (diJet.kin (quadJet.subl q))
            /\ diJet.dr (diJet.kin (quadJet.subl q))
               < Qmax (round64
                         (round64 (650 / v4j_mass toy (Event.Jet (Reco.event r)))
                          + round64 0.7))
                      1.5).
Proof.
  destruct (C7_sliding_dr_window toy chunk (7%Z, 5%nat)) as [H _].
  run_chunk H.
  do 2 eexists.
  split; [left; reflexivity|]. split; [left; reflexivity|].
  split; [vm_compute; reflexivity|].
  eapply (HP _ (or_introl eq_refl)). left. reflexivity.
Defined.

Lemma C8_witness :
  exists r q,
    In r run_sorted /\ In q (Reco.quadJet r)
    /\ diJet.st (diJet.kin (quadJet.subl q))
       <= diJet.st (diJet.kin (quadJet.lead q)).
Proof.
  pose proof (C8_lead_st_ge_subl_st toy chunk (7%Z, 5%nat)) as H.
  run_chunk H.
  do 2 eexists.
  split; [left; reflexivity|]. split; [left; reflexivity|].
  edestruct HP as [_ Hq]; [left; reflexivity|].
  apply Hq. left. reflexivity.
Defined.

Lemma C9_witness :
  exists r s d,
    In r run_sorted /\ In s (Reco.diJet r) /\ In d s
    /\ Jet.pt (diJet.subl (diJet.kin d)) <= Jet.pt (diJet.lead (diJet.kin d)).
Proof.
  pose proof (C9_lead_before_subl toy chunk (7%Z, 5%nat)) as H.
  run_chunk H.
  do 3 eexists.
  split; [left; reflexivity|]. split; [left; reflexivity|].
  split; [left; reflexivity|].
  edestruct HP as (j0 & j1 & j2 & j3 & rest & Hjs & _ & Hpt);
    [left; reflexivity | left; reflexivity | left; reflexivity |].
  injection Hjs as <- <- <- <- <-.
  apply Hpt; apply Qle_bool_iff; reflexivity.
Defined.

(** The jets of [ev_unsorted] are selected but not in order of pt: in its
    first pairing the dijet at the lead position is made of the jets 2 and
    3, with [lead.pt = 45] and [subl.pt = 70]. *)
Lemma C9_counterexample :
  survives ev_unsorted = true
  /\ exists dj s d,
      event_diJet toy (Event.Jet ev_unsorted) = Some dj
      /\ nth_error dj 0 = Some s
      /\ nth_error s 0 = Some d
      /\ Jet.pt (diJet.lead (diJet.kin d)) = 45
      /\ Jet.pt (diJet.subl (diJet.kin d)) = 70
      /\ ~ Jet.pt (diJet.subl (diJet.kin d)) <= Jet.pt (diJet.lead (diJet.kin d)).
Proof.
  split; [reflexivity|].
  do 3 eexists.
  split; [vm_compute; reflexivity|].
  repeat split; try reflexivity.
  simpl. intro H. apply Qle_bool_iff in H. discriminate H.
Qed.

Lemma X3_witness :
  count_nested_dict [("hists"%string, Dict [("m4j"%string, Leaf)]);
                     ("nEvent"%string, Leaf)] 0
  = count_nested_dict [("nEvent"%string, Leaf);
                       ("hists"%string, Dict [("m4j"%string, Leaf)])] 0.
Proof.
  apply count_nested_dict_order. apply perm_swap.
Defined.

Lemma toy_sqrt (x : Q) : np_sqrt toy x < 1.9 -> x < 3.61.
Proof. simpl. intro H. lra. Qed.

Lemma X8_witness :
  exists r,
    In r run_sorted
    /\ In (Reco.quadJet_selected r) (Reco.quadJet r)
    /\ (forall q, In q (Reco.quadJet r) ->
          (discrete q <= discrete (Reco.quadJet_selected r))%Z)
    /\ (Reco.diJetMass r = true
        <-> exists q, In q (Reco.quadJet r) /\ quadJet.diJetMass q = true).
Proof.
  pose proof (winner_prefers_cuts toy chunk (7%Z, 5%nat) toy_range) as H.
  run_chunk H.
  eexists. split; [left; reflexivity|].
  apply HP. left. reflexivity.
Defined.

Lemma X10_witness :
  exists r q,
    In r run_higgs /\ In q (Reco.quadJet r)
    /\ quadJet.SR q = true
    /\ quadJet.diJetMass q = true /\ quadJet.SB q = false.
Proof.
  pose proof (SR_within_mass_windows toy chunk_higgs (0%Z, 0%nat) toy_sqrt) as H.
  run_chunk H.
  do 2 eexists.
  split; [left; reflexivity|]. split; [left; reflexivity|].
  split; [reflexivity|].
  edestruct HP as [Hq _]; [left; reflexivity|].
  apply Hq; [left; reflexivity | reflexivity].
Defined.

Lemma X12_witness :
  exists r q,
    In r run_higgs /\ In q (Reco.quadJet r)
    /\ mass toy (diJet.kin (quadJet.lead q)) == 127.5
    /\ mass toy (diJet.kin (quadJet.subl q)) == 122.5
    /\ quadJet.SR q = true /\ quadJet.diJetMass q = true
    /\ quadJet.SB q = false.
Proof.
  assert (forall x, x == 0 -> np_sqrt toy x < 1.9) as Hsqrt
      by (simpl; intros x Hx; rewrite Hx; reflexivity).
  pose proof (SR_at_higgs_masses toy chunk_higgs (0%Z, 0%nat) Hsqrt) as H.
  run_chunk H.
  do 2 eexists.
  split; [left; reflexivity|]. split; [left; reflexivity|].
  split; [vm_compute; reflexivity|]. split; [vm_compute; reflexivity|].
  eapply (HP _ (or_introl eq_refl));
    [left; reflexivity | vm_compute; reflexivity | vm_compute; reflexivity].
Defined.

Lemma X13_witness :
  event_diJet toy [central 90 20; central 80 20; central 70 20] = None
  /\ reconstruct toy [ev_sorted;
                      Event.mk 1 [central 90 20; central 80 20; central 70 20]]
                  (7%Z, 5%nat)
     = (None, (7%Z, 5%nat)).
Proof.
  destruct (pairing_needs_four_jets toy
              [central 90 20; central 80 20; central 70 20]
              [ev_sorted;
               Event.mk 1 [central 90 20; central 80 20; central 70 20]]
              (7%Z, 5%nat)) as (Hnone & Hraise & _).
  split.
  - apply Hnone. simpl. lia.
  - apply Hraise. right. left. simpl. lia.
Defined.

Lemma X4_witness :
  exists out,
    fst (process toy chunk (7%Z, 5%nat)) = Some out
    /\ nEvent out = 2%nat
    /\ length (cutflow_in "all" "inclusive" out) = 2%nat
    /\ length (cutflow_in "preselection" "inclusive" out) = 1%nat
    /\ process toy {| dataset := "toy"; events := [Event.mk 1 []] |} (7%Z, 5%nat)
       = (None, (0%Z, 0%nat)).
Proof.
  destruct (process_cutflow_nested toy chunk (7%Z, 5%nat)) as (_ & _ & H).
  destruct H as (out & Hout & Hn & Hall & Hpre & _); [vm_compute; discriminate|].
  exists out. split; [exact Hout|]. split; [exact Hn|].
  split; [rewrite Hall; exact Hn|]. split; [exact Hpre|].
  destruct (process_cutflow_nested toy
              {| dataset := "toy"; events := [Event.mk 1 []] |} (7%Z, 5%nat))
    as (Hnone & Hstate & _).
  rewrite (surjective_pairing (process toy _ _)).
  rewrite (proj2 Hnone eq_refl), (Hstate eq_refl). reflexivity.
Defined.

Lemma X5_witness :
  exists out,
    fst (process toy chunk (7%Z, 5%nat)) = Some out
    /\ map drop_mass (hists_m4j out) = cutflow out
    /\ sumw out = ak_sum toy (map snd (cutflow_in "all" "inclusive" out)).
Proof.
  destruct (process_histograms_in_step toy chunk (7%Z, 5%nat))
    as (out & Hout & Hstep & _ & Hsum); [vm_compute; discriminate|].
  exists out. split; [exact Hout|]. split; [exact Hstep | exact Hsum].
Defined.

Lemma X6_witness :
  exists out out',
    fst (process toy chunk (7%Z, 5%nat)) = Some out
    /\ fst (process toy (reweight_batch (Qmult 3) chunk) (7%Z, 5%nat))
       = Some out'
    /\ cutflow out' = map (reweight_cutflow_fill (Qmult 3)) (cutflow out)
    /\ hists_m4j out' = map (reweight_hist_fill (Qmult 3)) (hists_m4j out)
    /\ nEvent out' = nEvent out.
Proof.
  destruct (process_weights_pass_through toy (Qmult 3) chunk (7%Z, 5%nat))
    as (out & out' & Hout & Hout' & Hc & Hh & Hn & _);
    [vm_compute; discriminate|].
  exists out, out'. repeat split; assumption.
Defined.

Lemma X7_witness :
  exists rs r q,
    fst (reconstruct toy (preselection (events chunk)) (0%Z, 0%nat)) = Some rs
    /\ nth_error rs 0 = Some r
    /\ nth_error (Reco.quadJet r) 1 = Some q
    /\ quadJet.random q = random_uniform 0.1 0.9 (random_sample toy 0 1)
    /\ snd (process toy chunk (7%Z, 5%nat)) = (0%Z, 3%nat).
Proof.
  destruct (process_random_by_position toy chunk (7%Z, 5%nat))
    as (rs & Hrs & _ & Hstate & Hrand); [vm_compute; discriminate|].
  assert (exists r, nth_error rs 0 = Some r) as (r & Hr).
  { vm_compute in Hrs. injection Hrs as <-. eexists. reflexivity. }
  assert (exists q, nth_error (Reco.quadJet r) 1 = Some q) as (q & Hq).
  { vm_compute in Hrs. injection Hrs as <-. injection Hr as <-.
    eexists. reflexivity. }
  exists rs, r, q. split; [exact Hrs|]. split; [exact Hr|]. split; [exact Hq|].
  split; [exact (Hrand 0%nat r 1%nat q Hr Hq) | exact Hstate].
Defined.

Lemma X14_witness :
  exists rs dj qs w,
    fst (reconstruct toy (preselection (events chunk)) (0%Z, 0%nat)) = Some rs
    /\ event_diJet toy (Event.Jet ev_sorted) = Some dj
    /\ event_quadJet toy dj (random_row toy 0 0 0) = Some qs
    /\ quadJet_selected qs = Some w
    /\ nth_error rs 0 = Some (Reco.mk ev_sorted dj qs w).
Proof.
  destruct (process_event_by_event toy chunk (7%Z, 5%nat))
    as (rs & Hrs & _ & _ & Hevent); [vm_compute; discriminate|].
  destruct (Hevent 0%nat ev_sorted eq_refl) as (dj & qs & w & Hdj & Hqs & Hw & Hr).
  exists rs, dj, qs, w. repeat split; assumption.
Defined.
